(** * memfs inodes: a shallow embedding of samples/memfs/inode.go

    The Go type [inode] stands for both the files and the directories of the
    in-memory file system.  Its methods mutate the receiver and may panic, so
    they are embedded in a state-and-panic monad over the record [inode].
    Go's [int] is taken to be 64 bits wide (amd64).  The clock and the
    allocator of the Go runtime are dependencies: their answers are
    arguments of the methods that consult them. *)

From Stdlib Require Import ZArith Lia.
From Stdlib.Strings Require Import Byte.
From stdpp Require Import base list strings gmap.

Local Open Scope string_scope.
Local Open Scope list_scope.
Local Open Scope Z_scope.

(** ** Collaborator types (fuse, fuseutil, os, time, io) *)

(** [fuseutil.DirentType]; [DT_Unknown] marks an unused slot. *)
Inductive DirentType : Type :=
| DT_Unknown | DT_Socket | DT_Link | DT_File
| DT_Block | DT_Directory | DT_Char | DT_FIFO.

#[global] Instance DirentType_eq_dec : EqDecision DirentType.
Proof. solve_decision. Defined.

(** [time.Time], as an instant on some integer scale. *)
Definition Time : Type := Z.

(** [fuseutil.Dirent].  [Offset] is a [fuse.DirOffset] (uint64), [Inode] a
    [fuse.InodeID] (uint64).  The Go field [Type] is spelt [Type_]. *)
Record Dirent : Type := mkDirent {
  Offset : Z;
  Inode : Z;
  Name : string;
  Type_ : DirentType
}.

#[global] Instance Dirent_eq_dec : EqDecision Dirent.
Proof. solve_decision. Defined.

(** The fields of [fuse.InodeAttributes] that inode.go touches. *)
Record InodeAttributes : Type := mkAttrs {
  Size : Z;
  Mode : Z;
  Mtime : Time;
  Crtime : Time
}.

(** [io.EOF] is the only error value these methods return. *)
Inductive error : Type := io_EOF.

Definition ModePerm : Z := 511.          (* os.ModePerm = 0777 *)
Definition ModeDir : Z := 2147483648.    (* os.ModeDir = 1 << 31 *)

(** [^x] on a uint32 (os.FileMode). *)
Definition not_uint32 (x : Z) : Z := Z.lxor x 4294967295.

(** Conversion to Go's 64-bit [int]: two's complement wrap-around. *)
Definition to_int (z : Z) : Z := (z + 2 ^ 63) mod 2 ^ 64 - 2 ^ 63.

(** ** Go slices

    A slice is [None] when it is nil.  Capacity is not modelled: no slice of
    an inode is aliased, and [append] stores every appended element. *)
Definition slice (A : Type) : Type := option (list A).

Definition elems {A} (s : slice A) : list A :=
  match s with None => [] | Some l => l end.

Definition len {A} (s : slice A) : Z := Z.of_nat (length (elems s)).

(** [append(s, xs...)]: a nil slice stays nil when nothing is appended. *)
Definition append {A} (s : slice A) (xs : list A) : slice A :=
  match s, xs with
  | None, [] => None
  | _, _ => Some (elems s ++ xs)
  end.

(** ** Results, and the state-and-panic monad *)

Inductive result (A : Type) : Type :=
| Ok (a : A)
| Panic (msg : string).
Arguments Ok {A} a.
Arguments Panic {A} msg.

(** [runtime.maxAlloc], the size above which the Go runtime refuses every
    allocation: 2^48 bytes on amd64. *)
Definition maxAlloc : Z := 2 ^ 48.

(** [make([]byte, n)]: [n] zero bytes.  The runtime panics with "makeslice:
    len out of range" when [n] is negative or above [maxAlloc], and stops the
    process when it cannot provide [n] bytes; [mem] is the number of bytes
    that it can provide at this call. *)
Definition make_bytes (mem n : Z) : result (list byte) :=
  if (n <? 0) || (maxAlloc <? n) then Panic "makeslice: len out of range"
  else if mem <? n then Panic "out of memory"
  else Ok (replicate (Z.to_nat n) x00).

(** [s[:n]]: run-time panic unless [0 <= n <= len(s)]. *)
Definition slice_to {A} (s : slice A) (n : Z) : result (slice A) :=
  if (n <? 0) || (len s <? n) then Panic "slice bounds out of range"
  else Ok (match s with
           | None => None
           | Some l => Some (take (Z.to_nat n) l)
           end).

(** [s[off:]]: run-time panic unless [0 <= off <= len(s)]. *)
Definition slice_from {A} (s : slice A) (off : Z) : result (slice A) :=
  if (off <? 0) || (len s <? off) then Panic "slice bounds out of range"
  else Ok (match s with
           | None => None
           | Some l => Some (drop (Z.to_nat off) l)
           end).

(** [copy(dst, src)]: the new contents of [dst] and the number of elements
    copied, the smaller of the two lengths. *)
Definition copy {A} (dst src : list A) : list A * Z :=
  let n := Nat.min (length dst) (length src) in
  (take n src ++ drop n dst, Z.of_nat n).

(** Common attributes for files and directories.  The clock is a dependency:
    every method that reads it takes the instant it returned as [now], and
    every method that allocates with [make] takes as [mem] the number of
    bytes that the runtime can provide; the mutex is represented by
    [exclusive] below. *)
Record inode : Type := mkInode {
  dir : bool;
  linkCount : Z;
  attributes : InodeAttributes;
  entries : slice Dirent;
  contents : slice byte
}.

Definition M (A : Type) : Type := inode -> result (A * inode).

Definition ret {A} (a : A) : M A := fun ino => Ok (a, ino).

Definition bind {A B} (m : M A) (k : A -> M B) : M B :=
  fun ino =>
    match m ino with
    | Ok (a, ino') => k a ino'
    | Panic msg => Panic msg
    end.

Definition panic {A} (msg : string) : M A := fun _ => Panic msg.

Definition get : M inode := fun ino => Ok (ino, ino).

Definition lift {A} (r : result A) : M A :=
  fun ino =>
    match r with
    | Ok a => Ok (a, ino)
    | Panic msg => Panic msg
    end.

Declare Scope go_scope.
Delimit Scope go_scope with go.
Notation "x <- m ;; k" := (bind m (fun x => k))
  (at level 100, m at next level, right associativity) : go_scope.
Notation "m ;;; k" := (bind m (fun _ => k))
  (at level 100, right associativity) : go_scope.
Local Open Scope go_scope.

(** Field assignments. *)
Definition set_Mtime (t : Time) : M unit :=
  fun ino =>
    let a := attributes ino in
    Ok (tt, mkInode (dir ino) (linkCount ino)
              (mkAttrs (Size a) (Mode a) t (Crtime a))
              (entries ino) (contents ino)).

Definition set_Size (sz : Z) : M unit :=
  fun ino =>
    let a := attributes ino in
    Ok (tt, mkInode (dir ino) (linkCount ino)
              (mkAttrs sz (Mode a) (Mtime a) (Crtime a))
              (entries ino) (contents ino)).

Definition set_Mode (m : Z) : M unit :=
  fun ino =>
    let a := attributes ino in
    Ok (tt, mkInode (dir ino) (linkCount ino)
              (mkAttrs (Size a) m (Mtime a) (Crtime a))
              (entries ino) (contents ino)).

Definition set_entries (es : slice Dirent) : M unit :=
  fun ino =>
    Ok (tt, mkInode (dir ino) (linkCount ino) (attributes ino)
              es (contents ino)).

Definition set_contents (c : slice byte) : M unit :=
  fun ino =>
    Ok (tt, mkInode (dir ino) (linkCount ino) (attributes ino)
              (entries ino) c).

(** [inode.entries[i] = e]: run-time panic when [i] is out of range. *)
Definition store_entry (i : nat) (e : Dirent) : M unit :=
  ino <- get ;;
  match entries ino with
  | Some es =>
      if decide (i < length es)%nat then set_entries (Some (<[i := e]> es))
      else panic "index out of range"
  | None => panic "index out of range"
  end.

(** [inode.entries[i].Offset = off]. *)
Definition store_entry_Offset (i : nat) (off : Z) : M unit :=
  ino <- get ;;
  match elems (entries ino) !! i with
  | Some e => store_entry i (mkDirent off (Inode e) (Name e) (Type_ e))
  | None => panic "index out of range"
  end.

(** ** Helpers *)

(** [newInode]: [now] is what [clock.Now()] returned. *)
Definition newInode (now : Time) (attrs : InodeAttributes) : inode :=
  mkInode (negb (Z.land (Mode attrs) ModeDir =? 0))
          1
          (mkAttrs (Size attrs) (Mode attrs) now now)
          None
          None.

Definition is_unknown (e : Dirent) : bool := bool_decide (Type_ e = DT_Unknown).

(** The loop of [checkInvariants] over [inode.entries] from index [i] on,
    with the names seen so far in [childNames]. *)
Fixpoint check_entries (es : list Dirent) (i : nat) (childNames : gset string)
  : result unit :=
  match es with
  | [] => Ok tt
  | e :: rest =>
      if negb (Offset e =? Z.of_nat i + 1) then Panic "Unexpected offset"
      else if negb (is_unknown e) then
        if bool_decide (Name e ∈ childNames) then Panic "Duplicate name"
        else check_entries rest (S i) ({[Name e]} ∪ childNames)
      else check_entries rest (S i) childNames
  end.

(** [checkInvariants]; the panic messages are kept without their formatted
    arguments. *)
Definition checkInvariants (ino : inode) : result unit :=
  if linkCount ino <? 0 then Panic "Negative link count"
  else if negb (Z.land (Mode (attributes ino))
                       (not_uint32 (Z.lor ModePerm ModeDir)) =? 0)
  then Panic "Unexpected mode"
  else if negb (Bool.eqb (dir ino)
                    (Z.land (Mode (attributes ino)) ModeDir =? ModeDir))
  then Panic "Unexpected mode, dir"
  else
    match (if dir ino then
             match contents ino with
             | Some _ => Panic "Non-nil contents in a directory."
             | None => check_entries (elems (entries ino)) 0 ∅
             end
           else Ok tt) with
    | Panic msg => Panic msg
    | Ok _ =>
        match (if negb (dir ino) then
                 match entries ino with
                 | Some _ => Panic "Non-nil entries in a file."
                 | None => Ok tt
                 end
               else Ok tt) with
        | Panic msg => Panic msg
        | Ok _ =>
            if negb (Size (attributes ino) =? len (contents ino))
            then Panic "Unexpected size"
            else Ok tt
        end
    end.

(** Modelled from the spec: syncutil.InvariantMutex is not among the sources.
    An exclusive acquisition runs the operation and, when the lock is
    released, re-validates the invariants; a violation halts the process. *)
Definition exclusive {A} (op : M A) : M A :=
  a <- op ;;
  ino <- get ;;
  lift (checkInvariants ino) ;;;
  ret a.

(** The [range] loop of [findChild] over the entries not yet visited: [next]
    is the index of the head of [es], [i] the current value of the result
    variable [i], which the loop assigns at every iteration. *)
Fixpoint findChild_range (name : string) (es : list Dirent) (next i : nat)
  : nat * bool :=
  match es with
  | [] => (i, false)
  | e :: rest =>
      if String.eqb (Name e) name then (next, true)
      else findChild_range name rest (S next) next
  end.

Definition findChild (name : string) : M (nat * bool) :=
  ino <- get ;;
  if negb (dir ino) then panic "findChild called on non-directory."
  else ret (findChild_range name (elems (entries ino)) 0 0).

(** ** Public methods *)

(** The loop of [Len], with the count so far in [n]. *)
Fixpoint Len_loop (es : list Dirent) (n : Z) : Z :=
  match es with
  | [] => n
  | e :: rest => Len_loop rest (if is_unknown e then n else n + 1)
  end.

Definition Len : M Z :=
  ino <- get ;;
  ret (Len_loop (elems (entries ino)) 0).

Definition LookUpChild (name : string) : M (Z * bool) :=
  r <- findChild name ;;
  let '(index, ok) := r in
  ino <- get ;;
  if ok then
    match elems (entries ino) !! index with
    | Some e => ret (Inode e, ok)
    | None => panic "index out of range"
    end
  else ret (0, ok).

(** The [range] loop of [AddChild] looking for a gap: the index of the first
    unused entry, counting the head of [es] as [index]. *)
Fixpoint find_gap (es : list Dirent) (index : nat) : option nat :=
  match es with
  | [] => None
  | e :: rest => if is_unknown e then Some index else find_gap rest (S index)
  end.

(** [AddChild].  The deferred function runs last on both paths.  The
    conversion [fuse.DirOffset(index + 1)] is exact, the length of a slice
    being below [2^63]. *)
Definition AddChild (now : Time) (id : Z) (name : string) (dt : DirentType)
  : M unit :=
  set_Mtime now ;;;
  let e := mkDirent 0 id name dt in
  ino <- get ;;
  index <- match find_gap (elems (entries ino)) 0 with
           | Some index => store_entry index e ;;; ret index
           | None =>
               let index := length (elems (entries ino)) in
               set_entries (append (entries ino) [e]) ;;; ret index
           end ;;
  store_entry_Offset index (Z.of_nat index + 1).

Definition RemoveChild (now : Time) (name : string) : M unit :=
  set_Mtime now ;;;
  r <- findChild name ;;
  let '(i, ok) := r in
  if negb ok then panic "Unknown child"
  else store_entry i (mkDirent (Z.of_nat i + 1) 0 "" DT_Unknown).

(** [ReadDir].  [fuseutil.AppendDirent(data, d)] is taken as [data] followed
    by [serialize d], the wire form of one entry, whose layout belongs to
    fuseutil. *)
Section ReadDir.
Variable serialize : Dirent -> list byte.

Definition AppendDirent (data : list byte) (d : Dirent) : list byte :=
  data ++ serialize d.

(** The body of the loop, over the entries from index [i] on; the buffer is
    a plain list, nil being the empty one. *)
Fixpoint ReadDir_loop (es : list Dirent) (data : list byte) (size : Z)
  : result (list byte) :=
  match es with
  | [] => Ok data
  | e :: rest =>
      if is_unknown e then ReadDir_loop rest data size
      else
        let data := AppendDirent data e in
        if size <? Z.of_nat (length data) then
          match slice_to (Some data) size with
          | Ok d => Ok (elems d)
          | Panic msg => Panic msg
          end
        else ReadDir_loop rest data size
  end.

(** With a negative [offset] the loop condition holds at once and
    [inode.entries[i]] is out of range. *)
Definition ReadDir (offset size : Z) : M (list byte * option error) :=
  ino <- get ;;
  if negb (dir ino) then panic "ReadDir called on non-directory."
  else if offset <? 0 then panic "index out of range"
  else
    data <- lift (ReadDir_loop (drop (Z.to_nat offset) (elems (entries ino)))
                               [] size) ;;
    ret (data, None).
End ReadDir.

(** [ReadAt]: the result carries the destination [p] after the copy. *)
Definition ReadAt (p : list byte) (off : Z) : M (list byte * Z * option error) :=
  ino <- get ;;
  if dir ino then panic "ReadAt called on directory."
  else if len (contents ino) <? off then ret (p, 0, Some io_EOF)
  else
    src <- lift (slice_from (contents ino) off) ;;
    let '(p', n) := copy p (elems src) in
    if n <? Z.of_nat (length p) then ret (p', n, Some io_EOF)
    else ret (p', n, None).

(** [copy(inode.contents[off:], p)]: the copy writes through the sub-slice
    into the contents themselves. *)
Definition copy_into_contents (off : Z) (p : list byte) : M Z :=
  ino <- get ;;
  dst <- lift (slice_from (contents ino) off) ;;
  let '(dst', n) := copy (elems dst) p in
  match contents ino with
  | Some l => set_contents (Some (take (Z.to_nat off) l ++ dst'))
  | None => ret tt
  end ;;;
  ret n.

(** [WriteAt].  [off] is an int64, so that [int(off)] is [off] itself; the
    sum wraps around like any [int]. *)
Definition WriteAt (now : Time) (mem : Z) (p : list byte) (off : Z)
  : M (Z * option error) :=
  ino <- get ;;
  if dir ino then panic "WriteAt called on directory."
  else
    set_Mtime now ;;;
    let newLen := to_int (off + Z.of_nat (length p)) in
    (if len (contents ino) <? newLen then
       padding <- lift (make_bytes mem (newLen - len (contents ino))) ;;
       set_contents (append (contents ino) padding) ;;;
       set_Size newLen
     else ret tt) ;;;
    n <- copy_into_contents off p ;;
    if negb (n =? Z.of_nat (length p)) then panic "Unexpected short copy"
    else ret (n, None).

(** [SetAttributes]: [None] is a nil pointer.  [size] is a uint64, [mode] an
    os.FileMode. *)
Definition SetAttributes (now : Time) (mem : Z)
    (size : option Z) (mode : option Z) (mtime : option Time) : M unit :=
  set_Mtime now ;;;
  match size with
  | Some sz =>
      let intSize := to_int sz in
      ino <- get ;;
      (if intSize <=? len (contents ino) then
         c <- lift (slice_to (contents ino) intSize) ;;
         set_contents c
       else
         padding <- lift (make_bytes mem (intSize - len (contents ino))) ;;
         set_contents (append (contents ino) padding)) ;;;
      set_Size sz
  | None => ret tt
  end ;;;
  match mode with
  | Some m => set_Mode m
  | None => ret tt
  end ;;;
  match mtime with
  | Some t => set_Mtime t
  | None => ret tt
  end.

(** ** Sequences of directory mutations *)

Inductive dir_op : Type :=
| Op_AddChild (now : Time) (id : Z) (name : string) (dt : DirentType)
| Op_RemoveChild (now : Time) (name : string).

Definition run_op (op : dir_op) : M unit :=
  match op with
  | Op_AddChild now id name dt => AddChild now id name dt
  | Op_RemoveChild now name => RemoveChild now name
  end.

Fixpoint run_ops (ops : list dir_op) : M unit :=
  match ops with
  | [] => ret tt
  | op :: rest => run_op op ;;; run_ops rest
  end.

(** ** Vocabulary of the statements *)

(** The table of a node as a list, nil being the empty table. *)
Definition table (ino : inode) : list Dirent := elems (entries ino).

(** Every slot carries its own position, 1-based, as its cursor. *)
Definition cursors_ok (es : list Dirent) : Prop :=
  ∀ i e, es !! i = Some e → Offset e = Z.of_nat i + 1.

(** Slot [i] is unused and no slot below it is. *)
Definition first_hole (es : list Dirent) (i : nat) : Prop :=
  (∃ e, es !! i = Some e ∧ Type_ e = DT_Unknown) ∧
  ∀ j e, (j < i)%nat → es !! j = Some e → Type_ e ≠ DT_Unknown.

Definition no_hole (es : list Dirent) : Prop :=
  ∀ j e, es !! j = Some e → Type_ e ≠ DT_Unknown.

(** Slot [i] bears [name] and no slot below it does. *)
Definition first_named (name : string) (es : list Dirent) (i : nat) : Prop :=
  (∃ e, es !! i = Some e ∧ Name e = name) ∧
  ∀ j e, (j < i)%nat → es !! j = Some e → Name e ≠ name.

Definition no_named (name : string) (es : list Dirent) : Prop :=
  ∀ j e, es !! j = Some e → Name e ≠ name.

(** What [RemoveChild] leaves in slot [i], and what [AddChild] puts there. *)
Definition hole (i : nat) : Dirent := mkDirent (Z.of_nat i + 1) 0 "" DT_Unknown.

Definition child (i : nat) (id : Z) (name : string) (dt : DirentType) : Dirent :=
  mkDirent (Z.of_nat i + 1) id name dt.

(** The node with a new modification time, respectively a new table. *)
Definition touched (now : Time) (ino : inode) : inode :=
  mkInode (dir ino) (linkCount ino)
          (mkAttrs (Size (attributes ino)) (Mode (attributes ino)) now
                   (Crtime (attributes ino)))
          (entries ino) (contents ino).

Definition with_table (es : list Dirent) (ino : inode) : inode :=
  mkInode (dir ino) (linkCount ino) (attributes ino) (Some es) (contents ino).

(** Some operation of [ops] removes [name], respectively adds the child
    [(id, name, dt)]. *)
Definition removes (name : string) (ops : list dir_op) : Prop :=
  ∃ now, Op_RemoveChild now name ∈ ops.

Definition adds (id : Z) (name : string) (dt : DirentType) (ops : list dir_op)
  : Prop :=
  ∃ now, Op_AddChild now id name dt ∈ ops.

(** Unused slots bear the empty name, as [RemoveChild] leaves them. *)
Definition holes_anonymous (es : list Dirent) : Prop :=
  ∀ i e, es !! i = Some e → Type_ e = DT_Unknown → Name e = "".

(** The entries in use from position [offset] on, in position order: what a
    listing started at that cursor has to deliver. *)
Definition listed (offset : Z) (ino : inode) : list Dirent :=
  filter (λ e, Type_ e ≠ DT_Unknown) (drop (Z.to_nat offset) (table ino)).

(** The wire form of a list of entries, one after the other. *)
Definition wire (serialize : Dirent → list byte) (es : list Dirent)
  : list byte :=
  flat_map serialize es.

(** How many leading entries of [es] fit whole, together, in [room] bytes. *)
Fixpoint fits (serialize : Dirent → list byte) (es : list Dirent) (room : nat)
  : nat :=
  match es with
  | [] => 0%nat
  | e :: rest =>
      if decide (length (serialize e) ≤ room)%nat
      then S (fits serialize rest (room - length (serialize e)))
      else 0%nat
  end.

(** No two entries in use bear the same name. *)
Definition names_unique (es : list Dirent) : Prop :=
  ∀ i j a b, es !! i = Some a → es !! j = Some b →
    Type_ a ≠ DT_Unknown → Type_ b ≠ DT_Unknown → Name a = Name b → i = j.

(** Some entry in use bears [name]. *)
Definition name_in_use (name : string) (es : list Dirent) : Prop :=
  ∃ i e, es !! i = Some e ∧ Type_ e ≠ DT_Unknown ∧ Name e = name.

(** The invariants that the comments of the struct state, as a proposition. *)
Definition invariants (ino : inode) : Prop :=
  0 ≤ linkCount ino ∧
  Z.land (Mode (attributes ino)) (not_uint32 (Z.lor ModePerm ModeDir)) = 0 ∧
  (dir ino = true ↔ Z.land (Mode (attributes ino)) ModeDir = ModeDir) ∧
  (dir ino = true →
     contents ino = None ∧ cursors_ok (table ino) ∧ names_unique (table ino)) ∧
  (dir ino = false → entries ino = None) ∧
  Size (attributes ino) = len (contents ino).

(** Every unused slot is exactly the marker that [RemoveChild] writes. *)
Definition holes_canonical (es : list Dirent) : Prop :=
  ∀ i e, es !! i = Some e → Type_ e = DT_Unknown → e = hole i.

(** Every AddChild of [ops] respects its requirement on the entry type. *)
Definition adds_in_use (ops : list dir_op) : Prop :=
  ∀ now id name dt, Op_AddChild now id name dt ∈ ops → dt ≠ DT_Unknown.

(** [AddChild] in one closed form: the table it leaves. *)
Definition placed (id : Z) (name : string) (dt : DirentType) (es : list Dirent)
  : list Dirent :=
  match find_gap es 0 with
  | Some k => <[k := child k id name dt]> es
  | None => es ++ [child (length es) id name dt]
  end.

(** The node with new contents. *)
Definition with_contents (c : slice byte) (ino : inode) : inode :=
  mkInode (dir ino) (linkCount ino) (attributes ino) (entries ino) c.

(** The runtime provides [n] bytes in one allocation. *)
Definition granted (mem n : Z) : Prop := n ≤ mem ∧ n ≤ maxAlloc.

#[global] Instance granted_dec mem n : Decision (granted mem n).
Proof. unfold granted. apply _. Defined.

(** What growing the contents of a node to [newLen] bytes asks of the
    allocator: the padding, when there is any. *)
Definition padding_granted (mem newLen : Z) (ino : inode) : Prop :=
  len (contents ino) < newLen → granted mem (newLen - len (contents ino)).

(** The entries in use of the slots below [k], and of those above it, in the
    order of the slots. *)
Definition used_below (k : nat) (es : list Dirent) : list Dirent :=
  filter (λ e, Type_ e ≠ DT_Unknown) (take k es).

Definition used_above (k : nat) (es : list Dirent) : list Dirent :=
  filter (λ e, Type_ e ≠ DT_Unknown) (drop (S k) es).

(** The contents after a resize to [sz], for [0 <= sz < 2^63]. *)
Definition resized (sz : Z) (c : slice byte) : slice byte :=
  if sz <=? len c
  then match c with None => None | Some l => Some (take (Z.to_nat sz) l) end
  else append c (replicate (Z.to_nat (sz - len c)) x00).

(** The value of an optional parameter, or the field left as it is. *)
Definition or_else {A} (o : option A) (d : A) : A :=
  match o with Some a => a | None => d end.



(** ** Sample nodes *)

Definition dir_attrs : InodeAttributes := mkAttrs 0 (Z.lor ModeDir 448) 0 0.
Definition file_attrs : InodeAttributes := mkAttrs 0 420 0 0.

Definition empty_dir : inode := newInode 0 dir_attrs.
Definition empty_file : inode := newInode 0 file_attrs.

(** A directory whose child "a" was removed and whose child "b" remains. *)
Definition sample_dir : inode :=
  with_table [hole 0; child 1 2 "b" DT_File] empty_dir.

(** A file holding five bytes. *)
Definition sample_file : inode :=
  mkInode false 1 (mkAttrs 5 420 0 0) None (Some [x0a; x0b; x0c; x0d; x0e]).

(** Two children added between two pages of a listing of [sample_dir]. *)
Definition newcomers : list dir_op :=
  [Op_AddChild 7 3 "z" DT_File; Op_AddChild 8 4 "y" DT_File].

(** [sample_dir] after [newcomers]. *)
Definition sample_dir_after : inode :=
  with_table [child 0 3 "z" DT_File; child 1 2 "b" DT_File;
              child 2 4 "y" DT_File]
             (touched 8 sample_dir).

(** A stand-in for the wire form of an entry: cursor, type tag and the bytes
    of the name.  The real layout belongs to fuseutil. *)
Definition sample_serialize (e : Dirent) : list byte :=
  match Byte.of_N (Z.to_N (Offset e) mod 256) with
  | Some b => [b]
  | None => [x00]
  end ++
  [if is_unknown e then x00 else x01] ++
  String.list_byte_of_string (Name e).

(** * Properties *)

(** ** The scans *)

Lemma find_gap_Some es k i :
  find_gap es k = Some i →
  (k ≤ i)%nat ∧ first_hole es (i - k).
Proof.
  revert k. induction es as [|e es IH]; intros k; simpl; [done|].
  unfold is_unknown. case_bool_decide as Hty.
  - intros [= <-]. replace (k - k)%nat with 0%nat by lia.
    split; [lia|]. split; [by exists e|]. intros j e' Hj. lia.
  - intros Hg. destruct (IH _ Hg) as [Hle [[e' [He' Hu]] Hlow]].
    split; [lia|]. replace (i - k)%nat with (S (i - S k)) by lia.
    split; [by exists e'|].
    intros [|j] e0 Hj; simpl; [by intros [= <-]|].
    apply Hlow. lia.
Qed.

Lemma find_gap_None es k : find_gap es k = None → no_hole es.
Proof.
  revert k. induction es as [|e es IH]; intros k; simpl.
  - intros _ j e. by rewrite lookup_nil.
  - unfold is_unknown. case_bool_decide as Hty; [done|].
    intros Hg [|j] e'; simpl; [by intros [= <-]|]. by apply (IH _ Hg).
Qed.

Lemma first_hole_unique es i j : first_hole es i → first_hole es j → i = j.
Proof.
  intros [[e [He Hu]] Hi] [[e' [He' Hu']] Hj].
  destruct (Nat.lt_trichotomy i j) as [Hlt|[->|Hlt]]; [|done|].
  - by destruct (Hj _ _ Hlt He).
  - by destruct (Hi _ _ Hlt He').
Qed.

Lemma first_hole_find_gap es i : first_hole es i → find_gap es 0 = Some i.
Proof.
  intros Hi. destruct (find_gap es 0) as [j|] eqn:Hg.
  - apply find_gap_Some in Hg as [_ Hj]. rewrite Nat.sub_0_r in Hj.
    f_equal. by eapply first_hole_unique.
  - apply find_gap_None in Hg. destruct Hi as [[e [He Hu]] _].
    by destruct (Hg _ _ He).
Qed.

Lemma no_hole_find_gap es : no_hole es → find_gap es 0 = None.
Proof.
  intros Hn. destruct (find_gap es 0) as [j|] eqn:Hg; [|done].
  apply find_gap_Some in Hg as [_ [[e [He Hu]] _]].
  by destruct (Hn _ _ He).
Qed.

Lemma findChild_range_found name es k i0 i :
  findChild_range name es k i0 = (i, true) →
  (k ≤ i)%nat ∧ first_named name es (i - k).
Proof.
  revert k i0. induction es as [|e es IH]; intros k i0; simpl; [done|].
  destruct (String.eqb_spec (Name e) name) as [Hn|Hn].
  - intros [= <-]. replace (k - k)%nat with 0%nat by lia.
    split; [lia|]. split; [by exists e|]. intros j e' Hj. lia.
  - intros Hf. destruct (IH _ _ Hf) as [Hle [[e' [He' Hu]] Hlow]].
    split; [lia|]. replace (i - k)%nat with (S (i - S k)) by lia.
    split; [by exists e'|].
    intros [|j] e0 Hj; simpl; [by intros [= <-]|].
    apply Hlow. lia.
Qed.

Lemma findChild_range_missing name es k i0 i :
  findChild_range name es k i0 = (i, false) → no_named name es.
Proof.
  revert k i0. induction es as [|e es IH]; intros k i0; simpl.
  - intros _ j e. by rewrite lookup_nil.
  - destruct (String.eqb_spec (Name e) name) as [Hn|Hn]; [done|].
    intros Hf [|j] e'; simpl; [by intros [= <-]|]. by apply (IH _ _ Hf).
Qed.

Lemma first_named_unique name es i j :
  first_named name es i → first_named name es j → i = j.
Proof.
  intros [[e [He Hu]] Hi] [[e' [He' Hu']] Hj].
  destruct (Nat.lt_trichotomy i j) as [Hlt|[->|Hlt]]; [|done|].
  - by destruct (Hj _ _ Hlt He).
  - by destruct (Hi _ _ Hlt He').
Qed.

Lemma first_named_findChild name es i :
  first_named name es i → findChild_range name es 0 0 = (i, true).
Proof.
  intros Hi. destruct (findChild_range name es 0 0) as [j [|]] eqn:Hf.
  - apply findChild_range_found in Hf as [_ Hj]. rewrite Nat.sub_0_r in Hj.
    f_equal. by eapply first_named_unique.
  - apply findChild_range_missing in Hf. destruct Hi as [[e [He Hu]] _].
    by destruct (Hf _ _ He).
Qed.

Lemma no_named_findChild name es :
  no_named name es → ∃ i, findChild_range name es 0 0 = (i, false).
Proof.
  intros Hn. destruct (findChild_range name es 0 0) as [j [|]] eqn:Hf; [|eauto].
  apply findChild_range_found in Hf as [_ [[e [He Hu]] _]].
  by destruct (Hn _ _ He).
Qed.

(** ** AddChild and RemoveChild in closed form *)

Lemma table_with_table es ino : table (with_table es ino) = es.
Proof. done. Qed.

Lemma store_entry_run i e ino :
  (i < length (table ino))%nat →
  store_entry i e ino = Ok (tt, with_table (<[i := e]> (table ino)) ino).
Proof.
  intros Hi. unfold store_entry, bind, get, table in *.
  destruct (entries ino) as [es|] eqn:Hes; simpl in *; [|lia].
  by rewrite decide_True.
Qed.

Lemma AddChild_gap now id name dt ino i :
  find_gap (table ino) 0 = Some i →
  AddChild now id name dt ino =
    Ok (tt, with_table (<[i := child i id name dt]> (table ino))
                       (touched now ino)).
Proof.
  intros Hg. unfold AddChild, bind at 1, set_Mtime. fold (touched now ino).
  unfold bind at 1, get. change (elems (entries (touched now ino))) with (table ino).
  rewrite Hg. destruct (find_gap_Some _ _ _ Hg) as [_ [[e0 [He0 _]] _]].
  rewrite Nat.sub_0_r in He0. apply lookup_lt_Some in He0 as Hlt.
  unfold bind at 1. unfold bind at 1.
  rewrite store_entry_run; [|done].
  unfold ret, store_entry_Offset, bind at 1, get.
  change (elems (entries (with_table ?es ?x))) with es.
  change (table (touched now ino)) with (table ino).
  rewrite list_lookup_insert_eq; [|done]. simpl.
  rewrite store_entry_run; [|by unfold table; cbn; rewrite length_insert].
  unfold with_table, table; simpl. by rewrite list_insert_insert_eq.
Qed.

Lemma AddChild_end now id name dt ino :
  find_gap (table ino) 0 = None →
  AddChild now id name dt ino =
    Ok (tt, with_table (table ino ++ [child (length (table ino)) id name dt])
                       (touched now ino)).
Proof.
  intros Hg. unfold AddChild, bind at 1, set_Mtime. fold (touched now ino).
  unfold bind at 1, get. change (elems (entries (touched now ino))) with (table ino).
  rewrite Hg. unfold bind at 1. unfold bind at 1. unfold set_entries, ret.
  unfold store_entry_Offset, bind at 1, get.
  set (e := mkDirent 0 id name dt).
  assert (append (entries (touched now ino)) [e] = Some (table ino ++ [e])) as ->.
  { unfold table. simpl. by destruct (entries ino). }
  cbn [entries elems]. rewrite lookup_app_r; [|lia]. rewrite Nat.sub_diag. simpl.
  rewrite store_entry_run.
  - unfold with_table, table; simpl. do 3 f_equal.
    rewrite insert_app_r_alt; [|lia]. by rewrite Nat.sub_diag.
  - unfold table; simpl. rewrite length_app; simpl. lia.
Qed.

Lemma RemoveChild_found now name ino i :
  dir ino = true →
  findChild_range name (table ino) 0 0 = (i, true) →
  RemoveChild now name ino =
    Ok (tt, with_table (<[i := hole i]> (table ino)) (touched now ino)).
Proof.
  intros Hd Hf. unfold RemoveChild, bind at 1, set_Mtime. fold (touched now ino).
  unfold bind at 1, findChild, bind at 1, get. cbn [dir touched]. rewrite Hd.
  cbn [negb]. unfold ret.
  change (elems (entries (touched now ino))) with (table ino). rewrite Hf.
  cbn [negb]. apply findChild_range_found in Hf as [_ [[e [He _]] _]].
  rewrite Nat.sub_0_r in He. apply lookup_lt_Some in He.
  by rewrite store_entry_run.
Qed.

Lemma RemoveChild_missing now name ino i :
  dir ino = true →
  findChild_range name (table ino) 0 0 = (i, false) →
  RemoveChild now name ino = Panic "Unknown child".
Proof.
  intros Hd Hf. unfold RemoveChild, bind at 1, set_Mtime. fold (touched now ino).
  unfold bind at 1, findChild, bind at 1, get. cbn [dir touched]. rewrite Hd.
  cbn [negb]. unfold ret.
  change (elems (entries (touched now ino))) with (table ino). by rewrite Hf.
Qed.

(** ** AddChild *)

(** C2.  On a directory, [AddChild] with an entry type other than Unknown
    never panics and refreshes the modification time.  If the table has an
    unused slot, the lowest one, say [i], is overwritten in place; otherwise
    the new entry is appended.  Either way the written entry carries the
    cursor [index + 1] of its final index, and every other slot, like every
    other field of the node, is unchanged. *)
Theorem AddChild_fills_lowest_hole_or_appends now id name dt ino :
  dir ino = true →
  dt ≠ DT_Unknown →
  ∃ ino',
    AddChild now id name dt ino = Ok (tt, ino') ∧
    Mtime (attributes ino') = now ∧
    dir ino' = dir ino ∧ linkCount ino' = linkCount ino ∧
    contents ino' = contents ino ∧
    Size (attributes ino') = Size (attributes ino) ∧
    Mode (attributes ino') = Mode (attributes ino) ∧
    Crtime (attributes ino') = Crtime (attributes ino) ∧
    (∀ i, first_hole (table ino) i →
       table ino' = <[i := mkDirent (Z.of_nat i + 1) id name dt]> (table ino) ∧
       table ino' !! i = Some (mkDirent (Z.of_nat i + 1) id name dt) ∧
       length (table ino') = length (table ino) ∧
       ∀ j, j ≠ i → table ino' !! j = table ino !! j) ∧
    (no_hole (table ino) →
       table ino' =
         table ino ++ [mkDirent (Z.of_nat (length (table ino)) + 1) id name dt] ∧
       table ino' !! length (table ino) =
         Some (mkDirent (Z.of_nat (length (table ino)) + 1) id name dt) ∧
       length (table ino') = S (length (table ino)) ∧
       ∀ j, (j < length (table ino))%nat → table ino' !! j = table ino !! j).
Proof.
  intros _ _. destruct (find_gap (table ino) 0) as [k|] eqn:Hg.
  - eexists. split; [by apply AddChild_gap|].
    repeat (split; [done|]). split.
    + intros i Hi. pose proof (first_hole_find_gap _ _ Hi) as Hk.
      rewrite Hg in Hk. injection Hk as ->.
      destruct Hi as [[e [He _]] _]. apply lookup_lt_Some in He.
      rewrite !table_with_table.
      split; [done|]. split; [by apply list_lookup_insert_eq|].
      split; [by apply length_insert|].
      intros j Hj. by apply list_lookup_insert_ne.
    + intros Hn. apply no_hole_find_gap in Hn. congruence.
  - eexists. split; [by apply AddChild_end|].
    repeat (split; [done|]). split.
    + intros i Hi. apply first_hole_find_gap in Hi. congruence.
    + intros _. rewrite !table_with_table.
      split; [done|]. split.
      { rewrite lookup_app_r; [|lia]. by rewrite Nat.sub_diag. }
      split; [rewrite length_app; simpl; lia|].
      intros j Hj. by apply lookup_app_l.
Qed.

(** ** RemoveChild *)

(** [RemoveChild] over the slots as [findChild] sees them: on a directory,
    [RemoveChild name] panics when no slot of the table bears [name], in use
    or not.  Otherwise the first slot that bears the name, [i], is
    overwritten with the hole marker, of type Unknown and with cursor
    [i + 1]; the table keeps its length and every other slot, and the
    modification time is refreshed. *)
Lemma RemoveChild_marks_slot_unused now name ino :
  dir ino = true →
  (no_named name (table ino) → ∃ msg, RemoveChild now name ino = Panic msg) ∧
  (∀ i, first_named name (table ino) i →
     ∃ ino',
       RemoveChild now name ino = Ok (tt, ino') ∧
       table ino' !! i = Some (mkDirent (Z.of_nat i + 1) 0 "" DT_Unknown) ∧
       length (table ino') = length (table ino) ∧
       (∀ j, j ≠ i → table ino' !! j = table ino !! j) ∧
       table ino' =
         <[i := mkDirent (Z.of_nat i + 1) 0 "" DT_Unknown]> (table ino) ∧
       Mtime (attributes ino') = now ∧
       dir ino' = dir ino ∧ linkCount ino' = linkCount ino ∧
       contents ino' = contents ino).
Proof.
  intros Hd. split.
  - intros Hn. destruct (no_named_findChild _ _ Hn) as [i Hf].
    eexists. by eapply RemoveChild_missing.
  - intros i Hi. pose proof (first_named_findChild _ _ _ Hi) as Hf.
    destruct Hi as [[e [He _]] _]. apply lookup_lt_Some in He.
    eexists. split; [by apply RemoveChild_found|].
    rewrite !table_with_table.
    split; [by apply list_lookup_insert_eq|].
    split; [by apply length_insert|].
    split; [intros j Hj; by apply list_lookup_insert_ne|done].
Qed.

(** C3.  The claim fails on the code: [findChild] compares names only, so
    that an unused slot, whose name is empty, stands in the way of an entry
    named "".  After AddChild(1, "a", File), AddChild(2, "", File) and
    RemoveChild("a") on a new directory, each of which passes
    [checkInvariants] at the release of the lock, slot 0 is unused and slot 1
    holds the child named "".  RemoveChild("") then finds slot 0: it returns,
    passes the check, and the child named "" is still in slot 1, neither
    overwritten nor out of the count of [Len].  And after AddChild(1, "a",
    File) and RemoveChild("a") alone, where no entry is in use, RemoveChild("")
    returns without a panic. *)
Theorem RemoveChild_leaves_child_behind_unused_slot :
  (∃ d1 d2 d d',
     exclusive (AddChild 1 1 "a" DT_File) empty_dir = Ok (tt, d1) ∧
     exclusive (AddChild 2 2 "" DT_File) d1 = Ok (tt, d2) ∧
     exclusive (RemoveChild 3 "a") d2 = Ok (tt, d) ∧
     table d = [hole 0; child 1 2 "" DT_File] ∧
     exclusive (RemoveChild 4 "") d = Ok (tt, d') ∧
     table d' = [hole 0; child 1 2 "" DT_File] ∧
     Len d' = Ok (1, d')) ∧
  (∃ d1 d d',
     exclusive (AddChild 1 1 "a" DT_File) empty_dir = Ok (tt, d1) ∧
     exclusive (RemoveChild 2 "a") d1 = Ok (tt, d) ∧
     table d = [hole 0] ∧
     Len d = Ok (0, d) ∧
     exclusive (RemoveChild 3 "") d = Ok (tt, d') ∧
     table d' = [hole 0]).
Proof.
  split.
  - do 4 eexists.
    split; [vm_compute; reflexivity|]. split; [vm_compute; reflexivity|].
    split; [vm_compute; reflexivity|]. split; [vm_compute; reflexivity|].
    split; [vm_compute; reflexivity|]. split; vm_compute; reflexivity.
  - do 3 eexists.
    split; [vm_compute; reflexivity|]. split; [vm_compute; reflexivity|].
    split; [vm_compute; reflexivity|]. split; [vm_compute; reflexivity|].
    split; vm_compute; reflexivity.
Qed.

(** ** Cursor stability *)

(** One mutation: the table does not shrink, cursors stay right, and a slot
    either keeps its entry, or was unused and received the added child, or
    bore the removed name and became a hole. *)
Lemma run_op_slots op ino ino' :
  dir ino = true →
  run_op op ino = Ok (tt, ino') →
  dir ino' = true ∧
  (length (table ino) ≤ length (table ino'))%nat ∧
  (cursors_ok (table ino) → cursors_ok (table ino')) ∧
  ∀ i e, table ino !! i = Some e →
    table ino' !! i = Some e ∨
    (Type_ e = DT_Unknown ∧
     ∃ now id name dt, op = Op_AddChild now id name dt ∧
                       table ino' !! i = Some (child i id name dt)) ∨
    (∃ now, op = Op_RemoveChild now (Name e) ∧ table ino' !! i = Some (hole i)).
Proof.
  intros Hd Hrun. destruct op as [now id name dt|now name]; simpl in Hrun.
  - destruct (find_gap (table ino) 0) as [k|] eqn:Hg.
    + rewrite (AddChild_gap _ _ _ _ _ _ Hg) in Hrun. injection Hrun as <-.
      rewrite table_with_table.
      destruct (find_gap_Some _ _ _ Hg) as [_ [[e0 [He0 Hu0]] _]].
      rewrite Nat.sub_0_r in He0. apply lookup_lt_Some in He0 as Hlt.
      split; [done|]. split; [by rewrite length_insert|]. split.
      * intros Hc i e. destruct (decide (k = i)) as [->|Hne].
        -- rewrite list_lookup_insert_eq; [|done]. by intros [= <-].
        -- rewrite list_lookup_insert_ne; [|done]. apply Hc.
      * intros i e He. destruct (decide (k = i)) as [->|Hne].
        -- right; left. split; [congruence|].
           exists now, id, name, dt. split; [done|].
           by apply list_lookup_insert_eq.
        -- left. by rewrite list_lookup_insert_ne.
    + rewrite (AddChild_end _ _ _ _ _ Hg) in Hrun. injection Hrun as <-.
      rewrite table_with_table.
      split; [done|]. split; [rewrite length_app; lia|]. split.
      * intros Hc i e. rewrite lookup_app_Some. intros [He|[Hi He]].
        -- by apply Hc.
        -- apply list_lookup_singleton_Some in He as [Hz <-]. simpl. lia.
      * intros i e He. left. by apply lookup_app_l_Some.
  - destruct (findChild_range name (table ino) 0 0) as [k [|]] eqn:Hf.
    + rewrite (RemoveChild_found _ _ _ _ Hd Hf) in Hrun. injection Hrun as <-.
      rewrite table_with_table.
      destruct (findChild_range_found _ _ _ _ _ Hf) as [_ [[e0 [He0 Hn0]] _]].
      rewrite Nat.sub_0_r in He0. apply lookup_lt_Some in He0 as Hlt.
      split; [done|]. split; [by rewrite length_insert|]. split.
      * intros Hc i e. destruct (decide (k = i)) as [->|Hne].
        -- rewrite list_lookup_insert_eq; [|done]. by intros [= <-].
        -- rewrite list_lookup_insert_ne; [|done]. apply Hc.
      * intros i e He. destruct (decide (k = i)) as [->|Hne].
        -- right; right. exists now.
           assert (e = e0) as -> by congruence. rewrite Hn0.
           split; [done|]. by apply list_lookup_insert_eq.
        -- left. by rewrite list_lookup_insert_ne.
    + by rewrite (RemoveChild_missing _ _ _ _ Hd Hf) in Hrun.
Qed.

Lemma run_ops_cons op ops ino ino' :
  run_ops (op :: ops) ino = Ok (tt, ino') →
  ∃ ino1, run_op op ino = Ok (tt, ino1) ∧ run_ops ops ino1 = Ok (tt, ino').
Proof.
  simpl. unfold bind. destruct (run_op op ino) as [[[] ino1]|]; [eauto|done].
Qed.

(** Through a sequence of mutations cursors stay right, the table does not
    shrink, and an entry in use that is not removed stays where it is. *)
Lemma run_ops_keeps ops ino ino' :
  dir ino = true →
  cursors_ok (table ino) →
  run_ops ops ino = Ok (tt, ino') →
  cursors_ok (table ino') ∧
  (length (table ino) ≤ length (table ino'))%nat ∧
  (∀ i e, table ino !! i = Some e → Type_ e ≠ DT_Unknown →
          ¬ removes (Name e) ops → table ino' !! i = Some e).
Proof.
  revert ino. induction ops as [|op ops IH]; intros ino Hd Hc Hrun.
  - injection Hrun as <-. repeat split; eauto.
  - apply run_ops_cons in Hrun as [ino1 [Hop Hrest]].
    destruct (run_op_slots _ _ _ Hd Hop) as (Hd1 & Hlen1 & Hc1 & Hslot).
    destruct (IH _ Hd1 (Hc1 Hc) Hrest) as (Hc' & Hlen' & Hkeep).
    split; [done|]. split; [lia|].
    intros i e He Hu Hrm. apply Hkeep; [|done|].
    + destruct (Hslot _ _ He) as [H1|[[Hty _]|[now [-> _]]]]; [done|done|].
      destruct Hrm. exists now. by left.
    + intros [now Hin]. apply Hrm. exists now. by right.
Qed.

(** C1.  Take a directory whose slots carry their positions as cursors (a new
    directory has no slot) and any sequence of AddChild and RemoveChild
    operations that runs to its end.  Then every slot [i] of the resulting
    table has cursor [i + 1]; the table is at least as long as before; an
    entry in use whose name the sequence never removes is still at its
    index; and what a slot of the original table holds in the end is its
    original entry, the hole marker of that slot, or a child added by the
    sequence with the cursor of that slot, never an entry of another slot. *)
Theorem cursor_stability ops ino ino' :
  dir ino = true →
  cursors_ok (table ino) →
  run_ops ops ino = Ok (tt, ino') →
  cursors_ok (table ino') ∧
  (length (table ino) ≤ length (table ino'))%nat ∧
  (∀ i e, table ino !! i = Some e → Type_ e ≠ DT_Unknown →
          ¬ removes (Name e) ops → table ino' !! i = Some e) ∧
  (∀ i e, table ino !! i = Some e →
          table ino' !! i = Some e ∨
          table ino' !! i = Some (mkDirent (Z.of_nat i + 1) 0 "" DT_Unknown) ∨
          ∃ id name dt, adds id name dt ops ∧
            table ino' !! i = Some (mkDirent (Z.of_nat i + 1) id name dt)).
Proof.
  intros Hd Hc Hrun.
  destruct (run_ops_keeps _ _ _ Hd Hc Hrun) as (Hc' & Hlen & Hkeep).
  split; [done|]. split; [done|]. split; [done|].
  clear Hc Hc' Hlen Hkeep. revert ino Hd Hrun.
  induction ops as [|op ops IH]; intros ino Hd Hrun i e He.
  - injection Hrun as <-. by left.
  - apply run_ops_cons in Hrun as [ino1 [Hop Hrest]].
    destruct (run_op_slots _ _ _ Hd Hop) as (Hd1 & _ & _ & Hslot).
    assert (∀ e1, table ino1 !! i = Some e1 →
              table ino' !! i = Some e1 ∨
              table ino' !! i = Some (mkDirent (Z.of_nat i + 1) 0 "" DT_Unknown) ∨
              ∃ id name dt, adds id name dt (op :: ops) ∧
                table ino' !! i = Some (mkDirent (Z.of_nat i + 1) id name dt))
      as Hlater.
    { intros e1 He1.
      destruct (IH _ Hd1 Hrest _ _ He1) as [H2|[H2|(id & name & dt & [t Hin] & H2)]];
        [by left|by right; left|].
      right; right. exists id, name, dt. split; [|done]. exists t. by right. }
    destruct (Hslot _ _ He)
      as [H1|[[_ (now & id & name & dt & -> & H1)]|[now [-> H1]]]].
    + by apply Hlater.
    + destruct (Hlater _ H1) as [H2|[H2|H2]]; [|by right; left|by right; right].
      right; right. exists id, name, dt. split; [|done]. exists now. by left.
    + destruct (Hlater _ H1) as [H2|[H2|H2]];
        [by right; left|by right; left|by right; right].
Qed.

Lemma newInode_cursors_ok now attrs : cursors_ok (table (newInode now attrs)).
Proof. intros i e. unfold table; simpl. by rewrite lookup_nil. Qed.

(** ** LookUpChild *)

Lemma LookUpChild_found name ino i e :
  dir ino = true →
  first_named name (table ino) i →
  table ino !! i = Some e →
  LookUpChild name ino = Ok (Inode e, true, ino).
Proof.
  intros Hd Hi He. apply first_named_findChild in Hi.
  unfold LookUpChild, bind at 1, findChild, bind at 1, get. rewrite Hd.
  cbn [negb]. unfold ret. fold (table ino). rewrite Hi.
  unfold bind, get. fold (table ino). by rewrite He.
Qed.

Lemma LookUpChild_missing name ino :
  dir ino = true →
  no_named name (table ino) →
  LookUpChild name ino = Ok (0, false, ino).
Proof.
  intros Hd Hn. destruct (no_named_findChild _ _ Hn) as [i Hi].
  unfold LookUpChild, bind at 1, findChild, bind at 1, get. rewrite Hd.
  cbn [negb]. unfold ret. fold (table ino). by rewrite Hi.
Qed.

(** Where unused slots are anonymous, a lookup by a non-empty name finds
    exactly the entries in use: it reports the first entry in use with that
    name, and nothing when there is none. *)
Lemma LookUpChild_nonempty_name name ino :
  dir ino = true →
  holes_anonymous (table ino) →
  name ≠ "" →
  (∀ i e, table ino !! i = Some e → Name e = name → Type_ e ≠ DT_Unknown →
          (∀ j e', (j < i)%nat → table ino !! j = Some e' →
                   Type_ e' ≠ DT_Unknown → Name e' ≠ name) →
          LookUpChild name ino = Ok (Inode e, true, ino)) ∧
  ((∀ j e', table ino !! j = Some e' → Type_ e' ≠ DT_Unknown → Name e' ≠ name) →
   LookUpChild name ino = Ok (0, false, ino)).
Proof.
  intros Hd Hanon Hne. split.
  - intros i e He Hn Hu Hlow. apply (LookUpChild_found _ _ i); [done| |done].
    split; [by exists e|]. intros j e' Hj He'.
    destruct (decide (Type_ e' = DT_Unknown)) as [Hty|Hty].
    + rewrite (Hanon _ _ He' Hty). congruence.
    + by eapply Hlow.
  - intros Hnone. apply LookUpChild_missing; [done|]. intros j e' He'.
    destruct (decide (Type_ e' = DT_Unknown)) as [Hty|Hty].
    + rewrite (Hanon _ _ He' Hty). congruence.
    + by eapply Hnone.
Qed.

(** C4.  The claim fails on the code: [findChild] compares names only.  After
    AddChild(1, "a", File) and RemoveChild("a") on a new directory, which
    passes [checkInvariants], the only slot is unused, and yet a lookup of
    the empty name reports a match, with the zero identifier of the hole. *)
Theorem LookUpChild_reports_unused_slot :
  ∃ d,
    run_ops [Op_AddChild 1 1 "a" DT_File; Op_RemoveChild 2 "a"] empty_dir
      = Ok (tt, d) ∧
    checkInvariants d = Ok tt ∧
    (∀ e, e ∈ table d → Type_ e = DT_Unknown) ∧
    LookUpChild "" d = Ok (0, true, d).
Proof.
  eexists. split; [vm_compute; reflexivity|].
  split; [vm_compute; reflexivity|].
  split; [|vm_compute; reflexivity].
  intros e He. change (e ∈ [hole 0]) in He.
  apply list_elem_of_singleton in He as ->. done.
Qed.

(** ** ReadDir *)

Section ReadDir_properties.
Variable serialize : Dirent → list byte.

Lemma wire_app es1 es2 :
  wire serialize (es1 ++ es2) = wire serialize es1 ++ wire serialize es2.
Proof. apply flat_map_app. Qed.

(** The loop returns the buffer it would build without a bound, cut at
    [size]. *)
Lemma ReadDir_loop_take es data size :
  0 ≤ size →
  Z.of_nat (length data) ≤ size →
  ReadDir_loop serialize es data size =
    Ok (take (Z.to_nat size)
             (data ++ wire serialize (filter (λ e, Type_ e ≠ DT_Unknown) es))).
Proof.
  intros Hsize. revert data.
  induction es as [|e es IH]; intros data Hdata; simpl.
  - rewrite app_nil_r, take_ge; [done|lia].
  - unfold is_unknown. case_bool_decide as Hty.
    + rewrite filter_cons_False; [|by intros []]. by apply IH.
    + rewrite filter_cons_True; [|done]. unfold AppendDirent.
      change (wire serialize (e :: ?l)) with (serialize e ++ wire serialize l).
      rewrite (app_assoc data).
      destruct (Z.ltb_spec size (Z.of_nat (length (data ++ serialize e))))
        as [Hover|Hfit].
      * unfold slice_to, len. simpl.
        destruct (Z.ltb_spec size 0) as [|_]; [lia|].
        destruct (Z.ltb_spec (Z.of_nat (length (data ++ serialize e))) size)
          as [|_]; [lia|].
        simpl. rewrite (take_app_le (data ++ serialize e)); [done|lia].
      * by apply IH.
Qed.

Lemma ReadDir_run offset size ino :
  dir ino = true → 0 ≤ offset → 0 ≤ size →
  ReadDir serialize offset size ino =
    Ok (take (Z.to_nat size) (wire serialize (listed offset ino)), None, ino).
Proof.
  intros Hd Hoff Hsize. unfold ReadDir, bind at 1, get. rewrite Hd.
  cbn [negb]. destruct (Z.ltb_spec offset 0) as [|_]; [lia|].
  unfold bind, lift. fold (table ino).
  by rewrite ReadDir_loop_take; [|done|simpl; lia].
Qed.

(** A negative cursor is a run-time panic, and so is a negative bound as soon
    as an entry in use is appended; with nothing to list, the empty buffer
    is returned whatever the bound. *)
Lemma ReadDir_negative_offset offset size ino :
  dir ino = true → offset < 0 →
  ReadDir serialize offset size ino = Panic "index out of range".
Proof.
  intros Hd Hoff. unfold ReadDir, bind at 1, get. rewrite Hd. cbn [negb].
  by destruct (Z.ltb_spec offset 0) as [_|]; [|lia].
Qed.

(** X25.  On a directory, for a cursor that is not negative and a negative
    bound: [ReadDir] panics on the bounds of the slice as soon as there is an
    entry in use to list from the cursor on, and returns the empty buffer
    when there is none. *)
Lemma ReadDir_negative_size offset size ino :
  dir ino = true → 0 ≤ offset → size < 0 →
  ReadDir serialize offset size ino =
    match listed offset ino with
    | [] => Ok ([], None, ino)
    | _ :: _ => Panic "slice bounds out of range"
    end.
Proof.
  intros Hd Hoff Hsize. unfold ReadDir, bind at 1, get. rewrite Hd. cbn [negb].
  destruct (Z.ltb_spec offset 0) as [|_]; [lia|].
  unfold bind, lift, listed. fold (table ino).
  induction (drop (Z.to_nat offset) (table ino)) as [|e es IH]; [done|].
  cbn [ReadDir_loop]. unfold is_unknown. case_bool_decide as Hty.
  - rewrite filter_cons_False; [done|by intros []].
  - rewrite filter_cons_True by done. unfold AppendDirent, slice_to.
    destruct (Z.ltb_spec size (Z.of_nat (length ([] ++ serialize e))))
      as [_|]; [|lia].
    by destruct (Z.ltb_spec size 0) as [_|]; [|lia].
Qed.

(** Cutting a wire form at [n] bytes leaves the entries that fit whole,
    then a proper prefix of the wire form of the next one. *)
Lemma take_wire es n :
  take n (wire serialize es) =
    wire serialize (take (fits serialize es n) es) ++
    match drop (fits serialize es n) es with
    | [] => []
    | e :: _ =>
        take (n - length (wire serialize (take (fits serialize es n) es)))
             (serialize e)
    end.
Proof.
  revert n. induction es as [|e es IH]; intros n; simpl.
  - by rewrite take_nil.
  - destruct (decide (length (serialize e) ≤ n)%nat) as [Hle|Hgt]; simpl.
    + rewrite take_app_ge; [|done]. rewrite IH, <- app_assoc. f_equal.
      destruct (drop _ es); [done|]. by rewrite length_app, Nat.sub_add_distr.
    + rewrite Nat.sub_0_r. rewrite take_app_le; [done|lia].
Qed.

Lemma fits_room es n :
  (length (wire serialize (take (fits serialize es n) es)) ≤ n)%nat ∧
  match drop (fits serialize es n) es with
  | [] => True
  | e :: _ =>
      (n < length (wire serialize (take (fits serialize es n) es))
           + length (serialize e))%nat
  end.
Proof.
  revert n. induction es as [|e es IH]; intros n; simpl; [split; [lia|done]|].
  destruct (decide (length (serialize e) ≤ n)%nat) as [Hle|Hgt]; simpl.
  - destruct (IH (n - length (serialize e))%nat) as [H1 H2].
    rewrite length_app. split; [lia|].
    destruct (drop _ es); [done|]. lia.
  - split; lia.
Qed.

(** C5.  On a directory, for a cursor and a byte bound that are not
    negative, [ReadDir] returns normally, without error and without
    changing the node.  Its buffer is the wire forms of the entries in use
    from index [cursor] to the end, in position order, unused slots being
    skipped, cut at [maxBytes]: the entries that fit whole, followed, when
    the next entry would exceed the bound, by the leading bytes of that
    entry up to exactly [maxBytes] bytes, after which nothing is appended.
    So the buffer is never longer than [maxBytes], and it is the whole
    listing when that fits. *)
Theorem ReadDir_bounded_listing cursor maxBytes ino :
  dir ino = true →
  0 ≤ cursor →
  0 ≤ maxBytes →
  let all := listed cursor ino in
  let k := fits serialize all (Z.to_nat maxBytes) in
  ∃ data,
    ReadDir serialize cursor maxBytes ino = Ok (data, None, ino) ∧
    data = take (Z.to_nat maxBytes) (wire serialize all) ∧
    Z.of_nat (length data) ≤ maxBytes ∧
    (Z.of_nat (length (wire serialize all)) ≤ maxBytes →
     data = wire serialize all) ∧
    (maxBytes < Z.of_nat (length (wire serialize all)) →
     Z.of_nat (length data) = maxBytes ∧
     ∃ e r,
       all !! k = Some e ∧
       (r < length (serialize e))%nat ∧
       data = wire serialize (take k all) ++ take r (serialize e)).
Proof.
  intros Hd Hc Hm. cbv zeta. rewrite ReadDir_run by done.
  remember (listed cursor ino) as all eqn:Eall.
  remember (fits serialize all (Z.to_nat maxBytes)) as k eqn:Ek.
  eexists. split; [done|].
  split; [done|]. split; [rewrite length_take; lia|]. split.
  - intros Hfit. rewrite take_ge; [done|lia].
  - intros Hover. split; [rewrite length_take; lia|].
    pose proof (take_wire all (Z.to_nat maxBytes)) as Htake.
    destruct (fits_room all (Z.to_nat maxBytes)) as [Hroom Hnext].
    rewrite <- Ek in Htake, Hroom, Hnext.
    destruct (drop k all) as [|e rest] eqn:Hdrop.
    + assert (take k all = all) as Hall.
      { rewrite <- (take_drop k all) at 2. by rewrite Hdrop, app_nil_r. }
      rewrite Hall in Hroom. lia.
    + exists e, (Z.to_nat maxBytes - length (wire serialize (take k all)))%nat.
      split; [|split; [lia|done]].
      rewrite <- (Nat.add_0_r k), <- lookup_drop. by rewrite Hdrop.
Qed.
End ReadDir_properties.

(** ** File contents *)

Lemma to_int_small z : - 2 ^ 63 ≤ z < 2 ^ 63 → to_int z = z.
Proof. intros Hz. unfold to_int. rewrite Z.mod_small; lia. Qed.

Lemma elems_append {A} (s : slice A) xs : elems (append s xs) = elems s ++ xs.
Proof. by destruct s, xs. Qed.

Lemma len_append {A} (s : slice A) xs :
  len (append s xs) = len s + Z.of_nat (length xs).
Proof. unfold len. rewrite elems_append, length_app. lia. Qed.

Lemma make_bytes_granted mem n :
  0 ≤ n → granted mem n → make_bytes mem n = Ok (replicate (Z.to_nat n) x00).
Proof.
  intros Hn [Hmem Hmax]. unfold make_bytes.
  destruct (Z.ltb_spec n 0) as [|_]; [lia|].
  destruct (Z.ltb_spec maxAlloc n) as [|_]; [lia|].
  by destruct (Z.ltb_spec mem n) as [|_]; [lia|].
Qed.

Lemma make_bytes_refused mem n :
  0 ≤ n → ¬ granted mem n → ∃ msg, make_bytes mem n = Panic msg.
Proof.
  intros Hn Hno. unfold make_bytes.
  destruct (Z.ltb_spec n 0) as [|_]; [lia|].
  destruct (Z.ltb_spec maxAlloc n) as [|Hmax]; [by eexists|].
  destruct (Z.ltb_spec mem n) as [|Hmem]; [by eexists|].
  by destruct Hno.
Qed.

(** Above [maxAlloc] the panic is that of [makeslice], whatever memory there
    is. *)
Lemma make_bytes_above_maxAlloc mem n :
  maxAlloc < n → make_bytes mem n = Panic "makeslice: len out of range".
Proof.
  intros Hn. unfold make_bytes.
  destruct (Z.ltb_spec maxAlloc n) as [_|]; [|lia]. by rewrite orb_true_r.
Qed.

Lemma copy_into_contents_run off p ino :
  0 ≤ off →
  off + Z.of_nat (length p) ≤ len (contents ino) →
  ∃ c,
    copy_into_contents off p ino = Ok (Z.of_nat (length p), with_contents c ino) ∧
    elems c = take (Z.to_nat off) (elems (contents ino)) ++ p ++
              drop (Z.to_nat off + length p) (elems (contents ino)).
Proof.
  intros Hoff Hroom. unfold copy_into_contents, bind at 1, get.
  unfold bind at 1, lift, slice_from.
  destruct (Z.ltb_spec off 0) as [|_]; [lia|].
  destruct (Z.ltb_spec (len (contents ino)) off) as [|_]; [lia|].
  cbn [orb]. unfold len in Hroom.
  destruct (contents ino) as [l|] eqn:Hc; simpl in *.
  - unfold copy. rewrite length_drop.
    replace (Nat.min (length l - Z.to_nat off) (length p)) with (length p) by lia.
    rewrite (take_ge p) by lia. rewrite drop_drop.
    exists (Some (take (Z.to_nat off) l ++ p ++ drop (Z.to_nat off + length p) l)).
    split; [|done]. by unfold bind, set_contents, ret, with_contents.
  - exists None. assert (p = []) as -> by (destruct p; [done|simpl in *; lia]).
    split; [|by rewrite take_nil, drop_nil].
    unfold copy, bind, ret, with_contents; simpl. by destruct ino; simpl in *; subst.
Qed.

Lemma WriteAt_run now mem p off ino :
  dir ino = false →
  0 ≤ off →
  off + Z.of_nat (length p) < 2 ^ 63 →
  padding_granted mem (off + Z.of_nat (length p)) ino →
  let old := elems (contents ino) in
  let ext := old ++ replicate (Z.to_nat (off + Z.of_nat (length p)) - length old) x00 in
  ∃ c,
    WriteAt now mem p off ino =
      Ok (Z.of_nat (length p), None,
          mkInode false (linkCount ino)
            (mkAttrs (if len (contents ino) <? off + Z.of_nat (length p)
                      then off + Z.of_nat (length p)
                      else Size (attributes ino))
                     (Mode (attributes ino)) now (Crtime (attributes ino)))
            (entries ino) c) ∧
    elems c = take (Z.to_nat off) ext ++ p ++ drop (Z.to_nat off + length p) ext.
Proof.
  intros Hd Hoff Hfit Hmem. cbv zeta.
  unfold WriteAt, bind at 1, get. rewrite Hd.
  unfold bind at 1, set_Mtime. rewrite to_int_small by lia.
  unfold bind at 1. cbn [contents].
  destruct (Z.ltb_spec (len (contents ino)) (off + Z.of_nat (length p))) as [Hgrow|Hroom].
  - unfold bind at 1, bind at 1, lift.
    rewrite make_bytes_granted by (by apply Hmem || lia).
    unfold bind at 1, set_contents, set_Size.
    cbn [dir linkCount attributes entries contents Size Mode Mtime Crtime].
    match goal with |- context [copy_into_contents off p ?st] =>
      destruct (copy_into_contents_run off p st) as (c & Hrun & Hc); [done| |] end.
    { cbn [contents]. rewrite len_append, length_replicate. lia. }
    exists c. rewrite Hrun. rewrite Z.eqb_refl. cbn [negb]. unfold ret.
    split. { unfold with_contents. cbn. by rewrite Hd. }
    rewrite Hc. cbn [contents]. rewrite elems_append. unfold len.
    by replace (Z.to_nat (off + Z.of_nat (length p) - Z.of_nat (length (elems (contents ino)))))
      with (Z.to_nat (off + Z.of_nat (length p)) - length (elems (contents ino)))%nat by lia.
  - unfold ret at 1. unfold bind at 1.
    match goal with |- context [copy_into_contents off p ?st] =>
      destruct (copy_into_contents_run off p st) as (c & Hrun & Hc); [done|done|] end.
    exists c. rewrite Hrun. rewrite Z.eqb_refl. cbn [negb]. unfold ret.
    split. { unfold with_contents. cbn. by rewrite Hd. }
    rewrite Hc. cbn [contents]. unfold len in Hroom.
    replace (Z.to_nat (off + Z.of_nat (length p)) - length (elems (contents ino)))%nat with 0%nat by lia.
    by rewrite app_nil_r.
Qed.

(** A negative offset is a run-time panic in [WriteAt] too. *)
Lemma copy_into_contents_negative off p ino :
  off < 0 → copy_into_contents off p ino = Panic "slice bounds out of range".
Proof.
  intros Hneg. unfold copy_into_contents, bind at 1, get.
  unfold bind at 1, lift, slice_from.
  by destruct (Z.ltb_spec off 0) as [_|]; [|lia].
Qed.

Lemma WriteAt_negative_offset now mem p off ino :
  dir ino = false →
  off < 0 →
  ∃ msg, WriteAt now mem p off ino = Panic msg.
Proof.
  intros Hd Hneg. unfold WriteAt, bind at 1, get. rewrite Hd.
  unfold bind at 1, set_Mtime. unfold bind at 1.
  destruct (_ <? _).
  - unfold bind at 1, bind at 1, lift.
    destruct (make_bytes mem _) as [padding|msg]; [|by eexists].
    unfold bind at 1, set_contents, set_Size.
    cbn [dir linkCount attributes entries contents Size Mode Mtime Crtime].
    rewrite copy_into_contents_negative by done. by eexists.
  - unfold ret at 1. unfold bind at 1.
    rewrite copy_into_contents_negative by done. by eexists.
Qed.

(** With the padding provided, if there is any, the panic is that of the
    slicing. *)
Lemma WriteAt_negative_offset_bounds now mem p off ino :
  dir ino = false →
  off < 0 →
  padding_granted mem (to_int (off + Z.of_nat (length p))) ino →
  WriteAt now mem p off ino = Panic "slice bounds out of range".
Proof.
  intros Hd Hneg Hmem. unfold WriteAt, bind at 1, get. rewrite Hd.
  unfold bind at 1, set_Mtime. unfold bind at 1. cbn [contents].
  destruct (Z.ltb_spec (len (contents ino))
              (to_int (off + Z.of_nat (length p)))) as [Hgrow|_].
  - unfold bind at 1, bind at 1, lift.
    rewrite make_bytes_granted by (by apply Hmem || lia).
    unfold bind at 1, set_contents, set_Size.
    cbn [dir linkCount attributes entries contents Size Mode Mtime Crtime].
    by rewrite copy_into_contents_negative by done.
  - unfold ret at 1. unfold bind at 1.
    by rewrite copy_into_contents_negative by done.
Qed.

(** Before a negative int64 offset the padding is shorter than the data. *)
Lemma padding_before_negative_offset mem (p : list byte) off ino :
  - 2 ^ 63 ≤ off < 0 →
  granted mem (Z.of_nat (length p)) →
  padding_granted mem (to_int (off + Z.of_nat (length p))) ino.
Proof.
  intros Hoff [Hmem Hmax]. unfold maxAlloc in Hmax.
  rewrite to_int_small by lia. intros Hgrow.
  assert (0 ≤ len (contents ino)) by (unfold len; lia).
  unfold granted, maxAlloc. lia.
Qed.

Lemma ReadAt_run p off ino :
  dir ino = false →
  0 ≤ off →
  off ≤ len (contents ino) →
  let src := drop (Z.to_nat off) (elems (contents ino)) in
  let n := Nat.min (length p) (length src) in
  ReadAt p off ino =
    Ok (take n src ++ drop n p, Z.of_nat n,
        if Z.of_nat n <? Z.of_nat (length p) then Some io_EOF else None, ino).
Proof.
  intros Hd Hoff Hin. cbv zeta. unfold ReadAt, bind at 1, get. rewrite Hd.
  destruct (Z.ltb_spec (len (contents ino)) off) as [|_]; [lia|].
  unfold bind, lift, slice_from.
  destruct (Z.ltb_spec off 0) as [|_]; [lia|].
  destruct (Z.ltb_spec (len (contents ino)) off) as [|_]; [lia|].
  cbn [orb]. unfold copy, ret.
  destruct (contents ino) as [l|]; cbn [elems].
  - by destruct (Z.of_nat _ <? _).
  - rewrite drop_nil. by destruct (Z.of_nat _ <? _).
Qed.

Lemma ReadAt_past_end p off ino :
  dir ino = false →
  len (contents ino) < off →
  ReadAt p off ino = Ok (p, 0, Some io_EOF, ino).
Proof.
  intros Hd Hpast. unfold ReadAt, bind at 1, get. rewrite Hd.
  by destruct (Z.ltb_spec (len (contents ino)) off) as [_|]; [|lia].
Qed.

(** A negative offset is a run-time panic, not an end-of-data result; the
    statements below are about offsets of a file, which are not negative. *)
Lemma ReadAt_negative_offset p off ino :
  dir ino = false →
  off < 0 →
  ReadAt p off ino = Panic "slice bounds out of range".
Proof.
  intros Hd Hneg. unfold ReadAt, bind at 1, get. rewrite Hd.
  assert (0 ≤ len (contents ino)) by (unfold len; lia).
  destruct (Z.ltb_spec (len (contents ino)) off) as [|_]; [lia|].
  unfold bind, lift, slice_from.
  by destruct (Z.ltb_spec off 0) as [_|]; [|lia].
Qed.

(** C8.  On a file, for an offset that is not negative: when the offset is
    strictly beyond the end of the contents, [ReadAt] copies nothing and
    returns 0 with the end-of-data error; otherwise it copies exactly
    min(len(destination), len(contents) - offset) bytes of the contents,
    starting at the offset, to the front of the destination, the rest of
    which is untouched, and the end-of-data error is returned if and only if
    fewer bytes were copied than the destination holds.  In both cases the
    call returns normally and the node is as before. *)
Theorem ReadAt_copies_what_is_there p off ino :
  dir ino = false →
  0 ≤ off →
  (len (contents ino) < off →
     ReadAt p off ino = Ok (p, 0, Some io_EOF, ino)) ∧
  (off ≤ len (contents ino) →
     ∃ p' n err,
       ReadAt p off ino = Ok (p', Z.of_nat n, err, ino) ∧
       Z.of_nat n = Z.min (Z.of_nat (length p)) (len (contents ino) - off) ∧
       take n p' = take n (drop (Z.to_nat off) (elems (contents ino))) ∧
       drop n p' = drop n p ∧
       (err = Some io_EOF ↔ (n < length p)%nat) ∧
       (err = None ↔ n = length p)).
Proof.
  intros Hd Hoff. split; [by apply ReadAt_past_end|].
  intros Hin. rewrite ReadAt_run by done.
  set (src := drop (Z.to_nat off) (elems (contents ino))).
  assert (Z.of_nat (length src) = len (contents ino) - off) as Hsrc.
  { unfold src, len in *. rewrite length_drop. lia. }
  set (n := Nat.min (length p) (length src)).
  assert (length (take n src) = n) as Hn by (rewrite length_take; lia).
  exists (take n src ++ drop n p), n, (if Z.of_nat n <? Z.of_nat (length p)
                                      then Some io_EOF else None).
  split; [done|]. split; [lia|]. split.
  { by rewrite take_app_length'. }
  split. { by rewrite drop_app_length'. }
  assert (n ≤ length p)%nat by apply Nat.le_min_l.
  destruct (Z.ltb_spec (Z.of_nat n) (Z.of_nat (length p)));
    split; split; (done || (intros; lia)).
Qed.

(** C7.  On a file whose size attribute is the length of its contents, for an
    offset that is not negative and data that ends within the range of an
    [int], when the runtime provides the padding that [make] asks for, if
    the contents must grow: [WriteAt] returns normally, with all of the data
    copied and no error, so the short-copy panic is never reached.  (A
    padding above [maxAlloc] is the panic of [WriteAt_above_maxAlloc].)
    Afterwards the size
    attribute is max(old size, offset + len(data)) and is again the length of
    the contents; the bytes between the old end and the offset are zero; the
    data sits in the contents from the offset on; the bytes outside the
    written range are as before; and a [ReadAt] at that offset into a
    destination of len(data) bytes returns exactly the data, with no error. *)
Theorem WriteAt_then_ReadAt now mem data offset ino :
  dir ino = false →
  Size (attributes ino) = len (contents ino) →
  0 ≤ offset →
  offset + Z.of_nat (length data) < 2 ^ 63 →
  padding_granted mem (offset + Z.of_nat (length data)) ino →
  ∃ ino',
    WriteAt now mem data offset ino = Ok (Z.of_nat (length data), None, ino') ∧
    Size (attributes ino') =
      Z.max (Size (attributes ino)) (offset + Z.of_nat (length data)) ∧
    len (contents ino') = Size (attributes ino') ∧
    (∀ j, len (contents ino) ≤ Z.of_nat j < offset →
          elems (contents ino') !! j = Some x00) ∧
    take (length data) (drop (Z.to_nat offset) (elems (contents ino'))) = data ∧
    (∀ j, Z.of_nat j < offset ∨ offset + Z.of_nat (length data) ≤ Z.of_nat j →
          (j < length (elems (contents ino)))%nat →
          elems (contents ino') !! j = elems (contents ino) !! j) ∧
    Mtime (attributes ino') = now ∧
    (∀ p, length p = length data →
          ReadAt p offset ino' =
            Ok (data, Z.of_nat (length data), None, ino')).
Proof.
  intros Hd Hsize Hoff Hfit Hmem.
  destruct (WriteAt_run now mem data offset ino Hd Hoff Hfit Hmem) as (c & Hrun & Hc).
  eexists. split; [exact Hrun|]. cbn [attributes contents Size Mtime].
  set (old := elems (contents ino)) in *.
  set (pad := replicate (Z.to_nat (offset + Z.of_nat (length data)) - length old) x00) in *.
  assert (Z.of_nat (length old) = len (contents ino)) as Hold by done.
  assert (length pad = (Z.to_nat (offset + Z.of_nat (length data)) - length old)%nat)
    as Hpad by apply length_replicate.
  assert (length (take (Z.to_nat offset) (old ++ pad)) = Z.to_nat offset) as Htk.
  { rewrite length_take, length_app. lia. }
  assert (len c = Z.max (len (contents ino)) (offset + Z.of_nat (length data))) as Hlen.
  { unfold len at 1. rewrite Hc, !length_app, length_drop, length_app, Htk. lia. }
  split. { destruct (Z.ltb_spec (len (contents ino)) (offset + Z.of_nat (length data))); lia. }
  split. { destruct (Z.ltb_spec (len (contents ino)) (offset + Z.of_nat (length data))); lia. }
  split.
  { intros j Hj. rewrite Hc, lookup_app_l by lia.
    rewrite lookup_take_lt by lia. rewrite lookup_app_r by lia.
    apply lookup_replicate_2. lia. }
  split.
  { rewrite Hc, drop_app_length' by done. by rewrite take_app_length. }
  split.
  { intros j Hj Hlt. rewrite Hc. destruct Hj as [Hj|Hj].
    - rewrite lookup_app_l by lia. rewrite lookup_take_lt by lia.
      by rewrite lookup_app_l.
    - rewrite lookup_app_r by lia. rewrite lookup_app_r by lia.
      rewrite lookup_drop, Htk. rewrite <- (lookup_app_l old pad) by done.
      f_equal. lia. }
  split; [done|].
  intros p Hp. rewrite ReadAt_run; [|done|done|cbn [contents]; lia].
  cbn [contents]. rewrite Hc, drop_app_length' by done.
  rewrite length_app.
  replace (Nat.min (length p) (length data + _)) with (length data) by lia.
  rewrite take_app_length, (drop_ge p), app_nil_r, Hp, Z.ltb_irrefl by lia. done.
Qed.

Lemma SetAttributes_run now mem size mode mtime ino :
  (∀ sz, size = Some sz → 0 ≤ sz < 2 ^ 63 ∧ padding_granted mem sz ino) →
  SetAttributes now mem size mode mtime ino =
    Ok (tt, mkInode (dir ino) (linkCount ino)
              (mkAttrs (or_else size (Size (attributes ino)))
                       (or_else mode (Mode (attributes ino)))
                       (or_else mtime now)
                       (Crtime (attributes ino)))
              (entries ino)
              (match size with
               | Some sz => resized sz (contents ino)
               | None => contents ino
               end)).
Proof.
  intros Hsz. unfold SetAttributes, bind at 1, set_Mtime.
  unfold bind at 1.
  destruct size as [sz|].
  - destruct (Hsz sz eq_refl) as [Hin Hmem]. rewrite to_int_small by lia.
    unfold bind at 1, get. unfold bind at 1. cbn [contents].
    unfold resized.
    destruct (Z.leb_spec sz (len (contents ino))) as [Hle|Hgt].
    + unfold bind at 1, lift, slice_to.
      destruct (Z.ltb_spec sz 0) as [|_]; [lia|].
      destruct (Z.ltb_spec (len (contents ino)) sz) as [|_]; [lia|].
      cbn [orb]. unfold set_contents, set_Size.
      cbn [dir linkCount attributes entries contents Size Mode Mtime Crtime].
      unfold bind. destruct mode, mtime; reflexivity.
    + unfold bind at 1, lift.
      rewrite make_bytes_granted by (by apply Hmem || lia).
      unfold set_contents, set_Size.
      cbn [dir linkCount attributes entries contents Size Mode Mtime Crtime].
      unfold bind. destruct mode, mtime; reflexivity.
  - unfold ret at 1. unfold bind. destruct mode, mtime; reflexivity.
Qed.

Lemma elems_resized sz c :
  0 ≤ sz →
  elems (resized sz c) =
    take (Z.to_nat sz) (elems c ++ replicate (Z.to_nat sz - length (elems c)) x00).
Proof.
  intros Hsz. unfold resized, len.
  destruct (Z.leb_spec sz (Z.of_nat (length (elems c)))) as [Hle|Hgt].
  - rewrite take_app_le by lia. destruct c; simpl; [done|by rewrite take_nil].
  - rewrite elems_append, take_ge.
    + do 2 f_equal. lia.
    + rewrite length_app, length_replicate. lia.
Qed.

Lemma resized_nil sz : 0 < sz → resized sz None = Some (replicate (Z.to_nat sz) x00).
Proof.
  intros Hsz. unfold resized, len. cbn [elems length].
  destruct (Z.leb_spec sz (Z.of_nat 0)) as [|_]; [lia|].
  unfold append. rewrite Z.sub_0_r.
  destruct (Z.to_nat sz) eqn:E; [lia|]. by simpl.
Qed.

Lemma SetAttributes_huge_size now mem sz mode mtime ino :
  2 ^ 63 ≤ sz < 2 ^ 64 →
  SetAttributes now mem (Some sz) mode mtime ino = Panic "slice bounds out of range".
Proof.
  intros Hsz. unfold SetAttributes, bind at 1, set_Mtime.
  unfold bind at 1, bind at 1, get, bind at 1. cbn [contents].
  assert (to_int sz = sz - 2 ^ 64) as ->.
  { unfold to_int. replace (sz + 2 ^ 63) with ((sz - 2 ^ 63) + 1 * 2 ^ 64) by lia.
    rewrite Z.mod_add by lia. rewrite Z.mod_small; lia. }
  assert (0 ≤ len (contents ino)) by (unfold len; lia).
  destruct (Z.leb_spec (sz - 2 ^ 64) (len (contents ino))) as [_|]; [|lia].
  unfold bind at 1, lift, slice_to.
  by destruct (Z.ltb_spec (sz - 2 ^ 64) 0) as [_|]; [|lia].
Qed.

(** When the padding is refused, [SetAttributes] panics in [make]; above
    [maxAlloc] the panic is that of [makeslice]. *)
Lemma SetAttributes_padding_refused now mem sz mode mtime ino :
  0 ≤ sz < 2 ^ 63 →
  len (contents ino) < sz →
  ¬ granted mem (sz - len (contents ino)) →
  ∃ msg, SetAttributes now mem (Some sz) mode mtime ino = Panic msg.
Proof.
  intros Hsz Hgrow Hno. unfold SetAttributes, bind at 1, set_Mtime.
  unfold bind at 1, bind at 1, get, bind at 1. cbn [contents].
  rewrite to_int_small by lia.
  destruct (Z.leb_spec sz (len (contents ino))) as [|_]; [lia|].
  unfold bind at 1, lift.
  destruct (make_bytes_refused mem (sz - len (contents ino))) as [msg ->];
    [lia|done|]. by eexists.
Qed.

Lemma SetAttributes_above_maxAlloc now mem sz mode mtime ino :
  sz < 2 ^ 63 →
  maxAlloc < sz - len (contents ino) →
  SetAttributes now mem (Some sz) mode mtime ino
    = Panic "makeslice: len out of range".
Proof.
  intros Hsz Hbig. unfold SetAttributes, bind at 1, set_Mtime.
  unfold bind at 1, bind at 1, get, bind at 1. cbn [contents].
  assert (0 ≤ len (contents ino)) by (unfold len; lia).
  unfold maxAlloc in Hbig. rewrite to_int_small by lia.
  destruct (Z.leb_spec sz (len (contents ino))) as [|_]; [lia|].
  unfold bind at 1, lift.
  by rewrite make_bytes_above_maxAlloc by (unfold maxAlloc; lia).
Qed.

Lemma WriteAt_above_maxAlloc now mem p off ino :
  dir ino = false →
  0 ≤ off →
  off + Z.of_nat (length p) < 2 ^ 63 →
  maxAlloc < off + Z.of_nat (length p) - len (contents ino) →
  WriteAt now mem p off ino = Panic "makeslice: len out of range".
Proof.
  intros Hd Hoff Hfit Hbig. unfold WriteAt, bind at 1, get. rewrite Hd.
  unfold bind at 1, set_Mtime. rewrite to_int_small by lia.
  unfold bind at 1. cbn [contents].
  assert (0 ≤ len (contents ino)) by (unfold len; lia).
  unfold maxAlloc in Hbig.
  destruct (Z.ltb_spec (len (contents ino)) (off + Z.of_nat (length p)))
    as [_|]; [|lia].
  unfold bind at 1, bind at 1, lift.
  by rewrite make_bytes_above_maxAlloc by (unfold maxAlloc; lia).
Qed.

(** C9.  On a file, for a new size within the range of an [int], when one is
    given, and when the runtime provides the padding that [make] asks for, if
    the contents must grow: [SetAttributes] returns normally.  (A padding
    above [maxAlloc] is the panic of [SetAttributes_above_maxAlloc].)  The
    modification time ends as the explicit [newMtime] when that is given, and
    as the instant read from the clock otherwise; the mode is replaced when
    one is given.  With a new size, the contents are cut to their first
    [newSize] bytes, or extended with zero bytes, to exactly [newSize] bytes,
    and the size attribute is [newSize]; without one, contents and size are
    as before.  Nothing else changes. *)
Theorem SetAttributes_file now mem size mode mtime ino :
  dir ino = false →
  (∀ sz, size = Some sz → 0 ≤ sz < 2 ^ 63 ∧ padding_granted mem sz ino) →
  ∃ ino',
    SetAttributes now mem size mode mtime ino = Ok (tt, ino') ∧
    Mtime (attributes ino') =
      match mtime with Some t => t | None => now end ∧
    Mode (attributes ino') =
      match mode with Some m => m | None => Mode (attributes ino) end ∧
    match size with
    | Some sz =>
        Size (attributes ino') = sz ∧
        len (contents ino') = sz ∧
        (sz ≤ len (contents ino) →
           elems (contents ino') = take (Z.to_nat sz) (elems (contents ino))) ∧
        (len (contents ino) ≤ sz →
           elems (contents ino') =
             elems (contents ino) ++
             replicate (Z.to_nat (sz - len (contents ino))) x00)
    | None =>
        Size (attributes ino') = Size (attributes ino) ∧
        contents ino' = contents ino
    end ∧
    Crtime (attributes ino') = Crtime (attributes ino) ∧
    dir ino' = dir ino ∧ linkCount ino' = linkCount ino ∧
    entries ino' = entries ino.
Proof.
  intros _ Hsz. eexists. split; [by apply SetAttributes_run|].
  cbn [attributes contents Size Mode Mtime Crtime dir linkCount entries].
  split; [by destruct mtime|]. split; [by destruct mode|].
  split; [|done]. destruct size as [sz|]; [|done].
  destruct (Hsz sz eq_refl) as [Hin _]. cbn [or_else]. split; [done|].
  unfold len. rewrite elems_resized by lia.
  split; [rewrite length_take, length_app, length_replicate; lia|]. split.
  - intros Hle. by rewrite take_app_le by lia.
  - intros Hge. rewrite take_ge.
    + do 2 f_equal. lia.
    + rewrite length_app, length_replicate. lia.
Qed.

Lemma len_resized sz c : 0 ≤ sz → len (resized sz c) = sz.
Proof.
  intros Hsz. unfold len. rewrite elems_resized by done.
  rewrite length_take, length_app, length_replicate. lia.
Qed.

Lemma exclusive_run {A} (op : M A) ino a ino' :
  op ino = Ok (a, ino') →
  exclusive op ino =
    match checkInvariants ino' with
    | Ok _ => Ok (a, ino')
    | Panic msg => Panic msg
    end.
Proof.
  intros Hop. unfold exclusive, bind, get, lift, ret. rewrite Hop.
  by destruct (checkInvariants ino').
Qed.

Lemma exclusive_panic {A} (op : M A) ino msg :
  op ino = Panic msg → exclusive op ino = Panic msg.
Proof. intros Hop. unfold exclusive, bind. by rewrite Hop. Qed.

Lemma checkInvariants_dir_contents ino l :
  dir ino = true →
  contents ino = Some l →
  ∃ msg, checkInvariants ino = Panic msg.
Proof.
  intros Hd Hc. unfold checkInvariants. rewrite Hd, Hc.
  repeat (match goal with |- context [if ?b then _ else _] => destruct b end);
    eauto.
Qed.

Lemma checkInvariants_dir_contents_msg ino l :
  dir ino = true →
  contents ino = Some l →
  (linkCount ino <? 0) = false →
  (Z.land (Mode (attributes ino)) (not_uint32 (Z.lor ModePerm ModeDir)) =? 0) = true →
  (Z.land (Mode (attributes ino)) ModeDir =? ModeDir) = true →
  checkInvariants ino = Panic "Non-nil contents in a directory.".
Proof.
  intros Hd Hc Hl Hm Hmd. unfold checkInvariants. by rewrite Hd, Hc, Hl, Hm, Hmd.
Qed.

Lemma checkInvariants_Ok ino :
  checkInvariants ino = Ok tt →
  (linkCount ino <? 0) = false ∧
  (Z.land (Mode (attributes ino)) (not_uint32 (Z.lor ModePerm ModeDir)) =? 0) = true ∧
  (Z.land (Mode (attributes ino)) ModeDir =? ModeDir) = dir ino ∧
  (dir ino = true → contents ino = None) ∧
  (dir ino = false → entries ino = None) ∧
  Size (attributes ino) = len (contents ino).
Proof.
  unfold checkInvariants.
  destruct (linkCount ino <? 0); [done|].
  destruct (Z.land _ (not_uint32 _) =? 0); [|done]. cbn [negb].
  destruct (dir ino) eqn:Hd, (Z.land _ ModeDir =? ModeDir) eqn:Hmd; try done;
    cbn [negb Bool.eqb].
  - destruct (contents ino); [done|]. destruct (check_entries _ _ _); [|done].
    destruct (Z.eqb_spec (Size (attributes ino)) (len (@None (list byte)))); [|done].
    by intros _.
  - destruct (entries ino); [done|].
    destruct (Z.eqb_spec (Size (attributes ino)) (len (contents ino))); [|done].
    by intros _.
Qed.

(** C10.  [SetAttributes] does not look at the kind of the node.  On a
    directory that satisfies the invariants, whose contents are therefore
    nil, a size above zero makes the exclusive section panic.  For a size
    within the range of an [int] that the runtime provides as padding,
    [SetAttributes] itself returns, having appended the padding to the nil
    contents, which are then not nil, and [checkInvariants] panics at the
    release of the lock, with "Non-nil contents in a directory." when the
    mode is left alone.  A size within the range of an [int] that the
    runtime refuses panics in [make], with "makeslice: len out of range"
    above [maxAlloc]; beyond the range of an [int] the conversion is
    negative and the slicing panics at once.  On a file that satisfies the
    invariants the call with a size that the runtime provides passes the
    check. *)
Theorem SetAttributes_size_on_directory now mem sz mode mtime ino :
  dir ino = true →
  checkInvariants ino = Ok tt →
  0 < sz < 2 ^ 64 →
  contents ino = None ∧
  (∃ msg, exclusive (SetAttributes now mem (Some sz) mode mtime) ino = Panic msg) ∧
  (sz < 2 ^ 63 → granted mem sz →
     ∃ ino',
       SetAttributes now mem (Some sz) mode mtime ino = Ok (tt, ino') ∧
       contents ino' = Some (replicate (Z.to_nat sz) x00) ∧
       (∃ msg, checkInvariants ino' = Panic msg) ∧
       (mode = None →
          checkInvariants ino' = Panic "Non-nil contents in a directory." ∧
          exclusive (SetAttributes now mem (Some sz) mode mtime) ino
            = Panic "Non-nil contents in a directory.")) ∧
  (maxAlloc < sz < 2 ^ 63 →
     SetAttributes now mem (Some sz) mode mtime ino
       = Panic "makeslice: len out of range") ∧
  (∀ f, dir f = false → checkInvariants f = Ok tt →
        sz < 2 ^ 63 → granted mem sz →
        ∃ f', exclusive (SetAttributes now mem (Some sz) None mtime) f = Ok (tt, f')).
Proof.
  intros Hd Hinv Hsz.
  destruct (checkInvariants_Ok _ Hinv) as (Hl & Hm & Hmd & Hnil & _ & _).
  specialize (Hnil Hd). rewrite Hd in Hmd.
  assert (len (contents ino) = 0) as Hlen by (by rewrite Hnil).
  assert (sz < 2 ^ 63 → granted mem sz →
          ∃ ino', SetAttributes now mem (Some sz) mode mtime ino = Ok (tt, ino') ∧
                  dir ino' = true ∧
                  contents ino' = Some (replicate (Z.to_nat sz) x00) ∧
                  linkCount ino' = linkCount ino ∧
                  Mode (attributes ino') = or_else mode (Mode (attributes ino)))
    as Hrun.
  { intros Hlt Hmem. eexists. split.
    - apply SetAttributes_run. intros ? [= <-]. split; [lia|].
      intros _. by rewrite Hlen, Z.sub_0_r.
    - cbn [dir contents linkCount attributes Mode]. rewrite Hnil.
      by rewrite resized_nil by lia. }
  split; [done|]. split; [|split; [|split]].
  - destruct (Z.lt_ge_cases sz (2 ^ 63)) as [Hlt|Hge].
    + destruct (decide (granted mem sz)) as [Hmem|Hno].
      * destruct (Hrun Hlt Hmem) as (ino' & Hok & Hd' & Hc' & _).
        destruct (checkInvariants_dir_contents _ _ Hd' Hc') as [msg Hmsg].
        exists msg. rewrite (exclusive_run _ _ _ _ Hok). by rewrite Hmsg.
      * destruct (SetAttributes_padding_refused now mem sz mode mtime ino)
          as [msg Hmsg]; [lia|lia|by rewrite Hlen, Z.sub_0_r|].
        exists msg. by apply exclusive_panic.
    + eexists. apply exclusive_panic. apply SetAttributes_huge_size. lia.
  - intros Hlt Hmem.
    destruct (Hrun Hlt Hmem) as (ino' & Hok & Hd' & Hc' & Hl' & Hm').
    exists ino'. split; [done|]. split; [done|].
    split; [by eapply checkInvariants_dir_contents|].
    intros ->. cbn [or_else] in Hm'.
    assert (checkInvariants ino' = Panic "Non-nil contents in a directory.") as Hp.
    { eapply checkInvariants_dir_contents_msg; [done|done|..]; by rewrite ?Hl', ?Hm'. }
    split; [done|]. rewrite (exclusive_run _ _ _ _ Hok). by rewrite Hp.
  - intros [Hbig Hlt]. apply SetAttributes_above_maxAlloc; lia.
  - intros f Hf Hfinv Hlt [Hmem Hmax].
    destruct (checkInvariants_Ok _ Hfinv) as (Hfl & Hfm & Hfmd & _ & Hfe & _).
    specialize (Hfe Hf). rewrite Hf in Hfmd.
    eexists. erewrite exclusive_run.
    2:{ apply SetAttributes_run. intros ? [= <-]. split; [lia|].
        intros Hgrow. assert (0 ≤ len (contents f)) by (unfold len; lia).
        split; lia. }
    unfold checkInvariants.
    cbn [dir contents linkCount attributes Mode Size entries or_else].
    rewrite Hfl, Hfm, Hfmd, Hf, Hfe. cbn [negb Bool.eqb].
    rewrite len_resized by lia. by rewrite Z.eqb_refl.
Qed.

(** ** Paging *)










Section Paging.
Variable serialize : Dirent → list byte.

Lemma ReadDir_unbounded cursor unbounded ino :
  dir ino = true → 0 ≤ cursor →
  Z.of_nat (length (wire serialize (listed cursor ino))) ≤ unbounded →
  ReadDir serialize cursor unbounded ino =
    Ok (wire serialize (listed cursor ino), None, ino).
Proof.
  intros Hd Hc Hfit. rewrite ReadDir_run by (done || lia).
  by rewrite take_ge by lia.
Qed.

End Paging.


(** ** The statements at the sample nodes *)

Lemma sample_dir_cursors_ok : cursors_ok (table sample_dir).
Proof. intros [|[|i]] e; simpl; [by intros [= <-]..|done]. Qed.

Lemma sample_dir_b_first : first_named "b" (table sample_dir) 1.
Proof.
  split; [by eexists|].
  intros [|j] e Hj; [|lia]. by intros [= <-].
Qed.

Lemma sample_dir_no_zz : no_named "zz" (table sample_dir).
Proof. intros [|[|j]] e; simpl; [by intros [= <-]..|done]. Qed.

Lemma newcomers_unrelated e :
  e ∈ listed 0 sample_dir → ¬ removes (Name e) newcomers.
Proof.
  intros _ [now Hin].
  repeat (apply elem_of_cons in Hin as [Hin|Hin]; [done|]).
  by apply elem_of_nil in Hin.
Qed.

Lemma cursor_stability_witness :
  cursors_ok (table sample_dir_after) ∧
  table sample_dir_after !! 1%nat = Some (child 1 2 "b" DT_File).
Proof.
  destruct (cursor_stability newcomers sample_dir sample_dir_after)
    as (Hc & _ & Hkeep & _);
    [reflexivity|exact sample_dir_cursors_ok|reflexivity|].
  split; [exact Hc|].
  apply Hkeep; [reflexivity|discriminate|].
  apply (newcomers_unrelated (child 1 2 "b" DT_File)). by left.
Defined.

Lemma AddChild_fills_lowest_hole_or_appends_witness :
  ∃ ino', AddChild 4 3 "c" DT_File sample_dir = Ok (tt, ino') ∧
          Mtime (attributes ino') = 4.
Proof.
  destruct (AddChild_fills_lowest_hole_or_appends 4 3 "c" DT_File sample_dir)
    as (ino' & Hrun & Hm & _); [reflexivity|discriminate|].
  exists ino'. split; [exact Hrun|exact Hm].
Defined.

Lemma RemoveChild_marks_slot_unused_witness :
  (∃ msg, RemoveChild 3 "zz" sample_dir = Panic msg) ∧
  ∃ ino', RemoveChild 3 "b" sample_dir = Ok (tt, ino') ∧
          table ino' !! 1%nat = Some (hole 1).
Proof.
  split.
  - apply (RemoveChild_marks_slot_unused 3 "zz" sample_dir); [reflexivity|].
    exact sample_dir_no_zz.
  - destruct (RemoveChild_marks_slot_unused 3 "b" sample_dir) as [_ Hf];
      [reflexivity|].
    destruct (Hf 1%nat sample_dir_b_first) as (ino' & Hrun & Hslot & _).
    exists ino'. split; [exact Hrun|exact Hslot].
Defined.

Lemma ReadDir_bounded_listing_witness :
  ∃ data, ReadDir sample_serialize 0 2 sample_dir = Ok (data, None, sample_dir) ∧
          Z.of_nat (length data) ≤ 2.
Proof.
  pose proof (ReadDir_bounded_listing sample_serialize 0 2 sample_dir) as H.
  cbv zeta in H.
  destruct H as (data & Hrun & _ & Hlen & _); [reflexivity|lia|lia|].
  exists data. split; [exact Hrun|exact Hlen].
Defined.


Lemma WriteAt_then_ReadAt_witness :
  ∃ ino', WriteAt 6 4096 [x01; x02; x03] 2 empty_file = Ok (3, None, ino') ∧
          Size (attributes ino') = 5 ∧
          ReadAt [x00; x00; x00] 2 ino' = Ok ([x01; x02; x03], 3, None, ino').
Proof.
  destruct (WriteAt_then_ReadAt 6 4096 [x01; x02; x03] 2 empty_file)
    as (ino' & Hrun & Hsize & _ & _ & _ & _ & _ & Hread);
    [reflexivity|reflexivity|lia|apply Z.ltb_lt; reflexivity
    |intros _; split; apply Z.leb_le; reflexivity|].
  exists ino'. split; [exact Hrun|]. split; [exact Hsize|].
  exact (Hread [x00; x00; x00] eq_refl).
Defined.

Lemma ReadAt_copies_what_is_there_witness :
  ReadAt (replicate 10 x09) 9 sample_file
    = Ok (replicate 10 x09, 0, Some io_EOF, sample_file) ∧
  ∃ p' n err,
    ReadAt (replicate 10 x09) 0 empty_file = Ok (p', Z.of_nat n, err, empty_file) ∧
    Z.of_nat n = 0.
Proof.
  split.
  - apply (ReadAt_copies_what_is_there (replicate 10 x09) 9 sample_file);
      [reflexivity|lia|apply Z.ltb_lt; reflexivity].
  - destruct (ReadAt_copies_what_is_there (replicate 10 x09) 0 empty_file)
      as [_ Hin]; [reflexivity|lia|].
    destruct Hin as (p' & n & err & Hrun & Hn & _); [apply Z.leb_le; reflexivity|].
    exists p', n, err. split; [exact Hrun|exact Hn].
Defined.

Lemma SetAttributes_file_witness :
  (∃ ino', SetAttributes 7 4096 (Some 3) None (Some 42) sample_file = Ok (tt, ino') ∧
           Mtime (attributes ino') = 42 ∧
           Size (attributes ino') = 3 ∧
           elems (contents ino') = [x0a; x0b; x0c]) ∧
  (∃ ino', SetAttributes 7 4096 (Some 7) None None sample_file = Ok (tt, ino') ∧
           Size (attributes ino') = 7 ∧
           elems (contents ino') = [x0a; x0b; x0c; x0d; x0e; x00; x00]).
Proof.
  split.
  - destruct (SetAttributes_file 7 4096 (Some 3) None (Some 42) sample_file)
      as (ino' & Hrun & Hm & _ & (Hs & _ & Hcut & _) & _);
      [reflexivity
      |intros sz [= <-]; split; [lia|intros _; split; apply Z.leb_le; reflexivity]|].
    exists ino'. split; [exact Hrun|]. split; [exact Hm|]. split; [exact Hs|].
    apply Hcut. apply Z.leb_le. reflexivity.
  - destruct (SetAttributes_file 7 4096 (Some 7) None None sample_file)
      as (ino' & Hrun & _ & _ & (Hs & _ & _ & Hgrow) & _);
      [reflexivity
      |intros sz [= <-]; split; [lia|intros _; split; apply Z.leb_le; reflexivity]|].
    exists ino'. split; [exact Hrun|]. split; [exact Hs|].
    apply Hgrow. apply Z.leb_le. reflexivity.
Defined.

(** A size of 2^62 on the sample file: the panic of [makeslice], whatever
    memory there is; and a write at that offset alike. *)
Lemma huge_padding_panics mem :
  SetAttributes 7 mem (Some (2 ^ 62)) None None sample_file
    = Panic "makeslice: len out of range" ∧
  WriteAt 6 mem [x01] (2 ^ 62) sample_file
    = Panic "makeslice: len out of range".
Proof.
  split.
  - apply SetAttributes_above_maxAlloc; [lia|].
    change (len (contents sample_file)) with 5. unfold maxAlloc. lia.
  - apply WriteAt_above_maxAlloc; [done|lia|simpl; lia|].
    change (len (contents sample_file)) with 5. unfold maxAlloc. simpl. lia.
Qed.

Lemma SetAttributes_size_on_directory_witness :
  exclusive (SetAttributes 7 4096 (Some 3) None None) sample_dir
    = Panic "Non-nil contents in a directory.".
Proof.
  destruct (SetAttributes_size_on_directory 7 4096 3 None None sample_dir)
    as (_ & _ & Hpad & _); [reflexivity|vm_compute; reflexivity|lia|].
  destruct Hpad as (ino' & _ & _ & _ & Hmsg);
    [lia|split; apply Z.leb_le; reflexivity|].
  apply Hmsg. reflexivity.
Defined.

(** ** The invariants, checked and stated *)

Lemma names_unique_cons e rest :
  names_unique (e :: rest) ↔
  names_unique rest ∧
  (Type_ e ≠ DT_Unknown →
   ∀ j b, rest !! j = Some b → Type_ b ≠ DT_Unknown → Name b ≠ Name e).
Proof.
  split.
  - intros Hu. split.
    + intros i j a b Ha Hb Hua Hub Hn.
      assert (S i = S j) by (by apply (Hu (S i) (S j) a b)). lia.
    + intros He j b Hb Hub Hn.
      assert (S j = 0%nat) by (by apply (Hu (S j) 0%nat b e)). lia.
  - intros [Hu Hfresh] [|i] [|j] a b Ha Hb Hua Hub Hn; simpl in *.
    + done.
    + injection Ha as <-. by destruct (Hfresh Hua j b).
    + injection Hb as <-. by destruct (Hfresh Hub i a).
    + f_equal. by apply (Hu i j a b).
Qed.

(** The loop accepts a table exactly when its cursors are right and its
    names in use are distinct from each other and from those seen before. *)
Lemma check_entries_Ok es i (seen : gset string) :
  check_entries es i seen = Ok tt ↔
  (∀ j e, es !! j = Some e → Offset e = Z.of_nat (i + j) + 1) ∧
  names_unique es ∧
  (∀ j e, es !! j = Some e → Type_ e ≠ DT_Unknown → Name e ∉ seen).
Proof.
  revert i seen. induction es as [|e es IH]; intros i seen.
  - simpl. split; [|done]. intros _. split; [|split].
    + intros j e. by rewrite lookup_nil.
    + intros j k a b. by rewrite lookup_nil.
    + intros j e. by rewrite lookup_nil.
  - cbn [check_entries]. rewrite names_unique_cons.
    destruct (Z.eqb_spec (Offset e) (Z.of_nat i + 1)) as [Hoff|Hoff]; cbn [negb].
    2:{ split; [done|]. intros [Hc _]. destruct Hoff.
        rewrite (Hc 0%nat e eq_refl). lia. }
    assert ((∀ j e0, (e :: es) !! j = Some e0 → Offset e0 = Z.of_nat (i + j) + 1) ↔
            (∀ j e0, es !! j = Some e0 → Offset e0 = Z.of_nat (S i + j) + 1)) as Hcur.
    { split.
      - intros Hc j e0 He0. rewrite (Hc (S j) e0 He0). lia.
      - intros Hc [|j] e0 He0; simpl in He0.
        + injection He0 as <-. lia.
        + rewrite (Hc j e0 He0). lia. }
    rewrite Hcur. unfold is_unknown. case_bool_decide as Hty; cbn [negb].
    + rewrite IH. split.
      * intros (Hc & Hu & Hs). repeat split; [done|done|done|].
        intros [|j] e0 He0 Hu0; simpl in He0; [by injection He0 as <-|by eapply Hs].
      * intros (Hc & [Hu _] & Hs). repeat split; [done|done|].
        intros j e0 He0. by apply (Hs (S j)).
    + case_bool_decide as Hin.
      * split; [done|]. intros (_ & _ & Hs). by destruct (Hs 0%nat e eq_refl Hty).
      * rewrite IH. split.
        -- intros (Hc & Hu & Hs). repeat split; [done|done| |].
           ++ intros _ j b Hb Hub Hn.
              apply (Hs j b Hb Hub), elem_of_union_l, elem_of_singleton, Hn.
           ++ intros [|j] e0 He0 Hu0; simpl in He0; [by injection He0 as <-|].
              intros Hseen. apply (Hs j e0 He0 Hu0). by apply elem_of_union_r.
        -- intros (Hc & [Hu Hfresh] & Hs). repeat split; [done|done|].
           intros j e0 He0 Hu0 [Hx%elem_of_singleton|Hx]%elem_of_union.
           ++ by apply (Hfresh Hty j e0 He0 Hu0).
           ++ by apply (Hs (S j) e0 He0 Hu0).
Qed.

(** With right cursors the loop can only object to a duplicate name. *)
Lemma check_entries_cursors es i (seen : gset string) :
  (∀ j e, es !! j = Some e → Offset e = Z.of_nat (i + j) + 1) →
  check_entries es i seen = Ok tt ∨
  check_entries es i seen = Panic "Duplicate name".
Proof.
  revert i seen. induction es as [|e es IH]; intros i seen Hc; [by left|].
  cbn [check_entries].
  destruct (Z.eqb_spec (Offset e) (Z.of_nat i + 1)) as [_|Hoff]; cbn [negb].
  2:{ destruct Hoff. rewrite (Hc 0%nat e eq_refl). lia. }
  assert (∀ j e0, es !! j = Some e0 → Offset e0 = Z.of_nat (S i + j) + 1) as Hc'.
  { intros j e0 He0. rewrite (Hc (S j) e0 He0). lia. }
  destruct (negb (is_unknown e)); [|by apply IH].
  case_bool_decide; [by right|by apply IH].
Qed.

Lemma land_ModeDir m :
  Z.land m ModeDir = 0 ∨ Z.land m ModeDir = ModeDir.
Proof.
  unfold ModeDir. change 2147483648 with (2 ^ 31).
  destruct (Z.testbit m 31) eqn:Hb; [right|left]; apply Z.bits_inj'; intros n Hn;
    rewrite Z.land_spec, ?Z.bits_0, Z.pow2_bits_eqb by lia;
    destruct (Z.eqb_spec 31 n) as [<-|]; rewrite ?Hb, ?andb_false_r; done.
Qed.

Lemma invariants_of_check ino : checkInvariants ino = Ok tt → invariants ino.
Proof.
  intros Hinv.
  destruct (checkInvariants_Ok _ Hinv) as (Hl & Hm & Hmd & Hnil & Hfile & Hs).
  apply Z.ltb_ge in Hl. apply Z.eqb_eq in Hm.
  split; [done|]. split; [done|]. split.
  { rewrite <- Hmd. apply Z.eqb_eq. }
  split; [|done].
  intros Hd. split; [by apply Hnil|].
  unfold checkInvariants in Hinv.
  destruct (linkCount ino <? 0); [done|].
  destruct (negb _); [done|]. destruct (negb _); [done|].
  rewrite Hd, (Hnil Hd) in Hinv.
  destruct (check_entries (elems (entries ino)) 0 ∅) as [[]|msg] eqn:Hce; [|done].
  apply check_entries_Ok in Hce as (Hcur & Hu & _). by split.
Qed.

Lemma check_of_invariants ino : invariants ino → checkInvariants ino = Ok tt.
Proof.
  intros (Hl & Hm & Hk & Hdir & Hfile & Hs). unfold checkInvariants.
  destruct (Z.ltb_spec (linkCount ino) 0) as [|_]; [lia|].
  rewrite Hm, Hs, !Z.eqb_refl. cbn [negb].
  destruct (dir ino) eqn:Hd.
  - rewrite (proj1 Hk eq_refl), Z.eqb_refl. cbn [negb Bool.eqb].
    destruct (Hdir eq_refl) as (Hc & Hcur & Hu). rewrite Hc.
    assert (check_entries (elems (entries ino)) 0 ∅ = Ok tt) as ->; [|done].
    apply check_entries_Ok. split; [done|]. split; [done|].
    intros j e He _. apply not_elem_of_empty.
  - destruct (Z.eqb_spec (Z.land (Mode (attributes ino)) ModeDir) ModeDir)
      as [Hmd|_]; [by apply Hk in Hmd|].
    cbn [negb Bool.eqb]. by rewrite (Hfile eq_refl).
Qed.

(** X2.  [checkInvariants] returns without a panic exactly on the nodes that
    satisfy the invariants written in the comments of the struct: the link
    count is not negative; the mode has no bit besides the permission bits
    and the directory bit; the directory bit is set exactly on directories;
    a directory has nil contents, cursors [index + 1] and no two entries in
    use with the same name; a file has nil entries; the size attribute is
    the length of the contents. *)
Theorem checkInvariants_iff ino :
  checkInvariants ino = Ok tt ↔ invariants ino.
Proof. split; [apply invariants_of_check|apply check_of_invariants]. Qed.

Lemma names_unique_insert_fresh es k c :
  names_unique es →
  (∀ j b, es !! j = Some b → Type_ b ≠ DT_Unknown → Name b ≠ Name c) →
  names_unique (<[k := c]> es).
Proof.
  intros Hu Hfresh i j a b Ha Hb Hua Hub Hn.
  apply list_lookup_insert_Some in Ha as [(-> & -> & _)|[Hi Ha]];
    apply list_lookup_insert_Some in Hb as [(-> & -> & _)|[Hj Hb]].
  - done.
  - by destruct (Hfresh j b).
  - by destruct (Hfresh i a).
  - by apply (Hu i j a b).
Qed.

Lemma names_unique_snoc_fresh es c :
  names_unique es →
  (∀ j b, es !! j = Some b → Type_ b ≠ DT_Unknown → Name b ≠ Name c) →
  names_unique (es ++ [c]).
Proof.
  intros Hu Hfresh i j a b Ha Hb Hua Hub Hn.
  apply lookup_snoc_Some in Ha as [[Hi Ha]|[-> ->]];
    apply lookup_snoc_Some in Hb as [[Hj Hb]|[-> ->]].
  - by apply (Hu i j a b).
  - by destruct (Hfresh i a).
  - by destruct (Hfresh j b).
  - done.
Qed.

Lemma names_unique_insert_unused es k h :
  Type_ h = DT_Unknown →
  names_unique es →
  names_unique (<[k := h]> es).
Proof.
  intros Hh Hu i j a b Ha Hb Hua Hub Hn.
  apply list_lookup_insert_Some in Ha as [(-> & -> & _)|[Hi Ha]]; [done|].
  apply list_lookup_insert_Some in Hb as [(-> & -> & _)|[Hj Hb]]; [done|].
  by apply (Hu i j a b).
Qed.

Lemma cursors_ok_insert es k e :
  Offset e = Z.of_nat k + 1 → cursors_ok es → cursors_ok (<[k := e]> es).
Proof.
  intros He Hc i a Ha.
  apply list_lookup_insert_Some in Ha as [(-> & -> & _)|[Hi Ha]]; [done|by apply Hc].
Qed.

Lemma cursors_ok_snoc es e :
  Offset e = Z.of_nat (length es) + 1 → cursors_ok es → cursors_ok (es ++ [e]).
Proof.
  intros He Hc i a Ha.
  apply lookup_snoc_Some in Ha as [[Hi Ha]|[-> ->]]; [by apply Hc|done].
Qed.

Lemma AddChild_placed now id name dt ino :
  AddChild now id name dt ino =
    Ok (tt, with_table (placed id name dt (table ino)) (touched now ino)).
Proof.
  unfold placed. destruct (find_gap (table ino) 0) as [k|] eqn:Hg.
  - by apply AddChild_gap.
  - by apply AddChild_end.
Qed.

Lemma placed_cursors_ok id name dt es :
  cursors_ok es → cursors_ok (placed id name dt es).
Proof.
  intros Hc. unfold placed. destruct (find_gap es 0) as [k|].
  - by apply cursors_ok_insert.
  - by apply cursors_ok_snoc.
Qed.

Lemma placed_names_unique id name dt es :
  names_unique es →
  ¬ name_in_use name es →
  names_unique (placed id name dt es).
Proof.
  intros Hu Hfresh. unfold placed.
  assert (∀ j b, es !! j = Some b → Type_ b ≠ DT_Unknown → Name b ≠ name) as Hf.
  { intros j b Hb Hub Hn. apply Hfresh. by exists j, b. }
  destruct (find_gap es 0) as [k|].
  - by apply names_unique_insert_fresh.
  - by apply names_unique_snoc_fresh.
Qed.

(** The new child sits in a slot that held no entry in use. *)
Lemma placed_slot id name dt es :
  ∃ k, placed id name dt es !! k = Some (child k id name dt) ∧
       (∀ e, es !! k = Some e → Type_ e = DT_Unknown) ∧
       (∀ j, j ≠ k → (j < length es)%nat → placed id name dt es !! j = es !! j) ∧
       (k ≤ length es)%nat ∧
       length (placed id name dt es) = Nat.max (length es) (S k).
Proof.
  unfold placed. destruct (find_gap es 0) as [k|] eqn:Hg.
  - destruct (find_gap_Some _ _ _ Hg) as [_ [[h [Hh Hu]] _]].
    rewrite Nat.sub_0_r in Hh. apply lookup_lt_Some in Hh as Hlt.
    exists k. split; [by apply list_lookup_insert_eq|].
    split; [intros e He; congruence|].
    split; [intros j Hj _; by apply list_lookup_insert_ne|].
    split; [lia|]. rewrite length_insert. lia.
  - exists (length es). split.
    { rewrite lookup_app_r by lia. by rewrite Nat.sub_diag. }
    split. { intros e He. apply lookup_lt_Some in He. lia. }
    split; [intros j _ Hj; by apply lookup_app_l|].
    split; [lia|]. rewrite length_app. simpl. lia.
Qed.

Lemma invariants_touched now ino : invariants ino → invariants (touched now ino).
Proof. done. Qed.

(** X3.  On a directory that passes [checkInvariants], [AddChild] with an
    entry type other than Unknown and a name that no entry in use bears
    leaves a node that passes [checkInvariants] again, so that the exclusive
    section completes; the name is then in use. *)
Theorem AddChild_keeps_invariants now id name dt ino :
  dir ino = true →
  checkInvariants ino = Ok tt →
  dt ≠ DT_Unknown →
  ¬ name_in_use name (table ino) →
  ∃ ino',
    exclusive (AddChild now id name dt) ino = Ok (tt, ino') ∧
    checkInvariants ino' = Ok tt ∧
    name_in_use name (table ino').
Proof.
  intros Hd Hinv Hdt Hfresh.
  apply invariants_of_check in Hinv as (Hl & Hm & Hk & Hdir & Hfile & Hs).
  destruct (Hdir Hd) as (Hc & Hcur & Hu).
  set (ino' := with_table (placed id name dt (table ino)) (touched now ino)).
  assert (checkInvariants ino' = Ok tt) as Hok.
  { apply check_of_invariants. repeat split; try done.
    - by apply Hk.
    - by apply placed_cursors_ok.
    - by apply placed_names_unique.
    - intros Hf. cbn in Hf. congruence. }
  exists ino'. split; [|split; [done|]].
  - rewrite (exclusive_run _ _ _ _ (AddChild_placed now id name dt ino)).
    fold ino'. by rewrite Hok.
  - destruct (placed_slot id name dt (table ino)) as (k & Hk' & _).
    exists k, (child k id name dt). unfold ino'. by rewrite table_with_table.
Qed.

Lemma checkInvariants_dir ino :
  dir ino = true →
  0 ≤ linkCount ino →
  Z.land (Mode (attributes ino)) (not_uint32 (Z.lor ModePerm ModeDir)) = 0 →
  Z.land (Mode (attributes ino)) ModeDir = ModeDir →
  contents ino = None →
  checkInvariants ino =
    match check_entries (table ino) 0 ∅ with
    | Panic msg => Panic msg
    | Ok _ =>
        if negb (Size (attributes ino) =? len (contents ino))
        then Panic "Unexpected size" else Ok tt
    end.
Proof.
  intros Hd Hl Hm Hmd Hc. unfold checkInvariants. rewrite Hd, Hm, Hmd, Hc.
  destruct (Z.ltb_spec (linkCount ino) 0) as [|_]; [lia|].
  by rewrite Z.eqb_refl.
Qed.

(** X4.  [AddChild] does not look for the name.  On a directory that passes
    [checkInvariants], adding a child under a name that an entry in use
    already bears returns normally, and [checkInvariants] then panics with
    "Duplicate name", at the release of the exclusive lock. *)
Theorem AddChild_duplicate_name_panics now id name dt ino :
  dir ino = true →
  checkInvariants ino = Ok tt →
  dt ≠ DT_Unknown →
  name_in_use name (table ino) →
  ∃ ino',
    AddChild now id name dt ino = Ok (tt, ino') ∧
    checkInvariants ino' = Panic "Duplicate name" ∧
    exclusive (AddChild now id name dt) ino = Panic "Duplicate name".
Proof.
  intros Hd Hinv Hdt (i & e & He & Hue & Hne).
  apply invariants_of_check in Hinv as (Hl & Hm & Hk & Hdir & Hfile & Hs).
  destruct (Hdir Hd) as (Hc & Hcur & Hu).
  set (ino' := with_table (placed id name dt (table ino)) (touched now ino)).
  assert (checkInvariants ino' = Panic "Duplicate name") as Hp.
  { rewrite checkInvariants_dir; try done; [|by apply Hk].
    unfold ino'. rewrite table_with_table.
    destruct (check_entries_cursors (placed id name dt (table ino)) 0 ∅)
      as [Hok| ->]; [|exfalso|done].
    { intros j a Ha. by apply (placed_cursors_ok id name dt _ Hcur). }
    apply check_entries_Ok in Hok as (_ & Hu' & _).
    destruct (placed_slot id name dt (table ino)) as (k & Hk1 & Hk2 & Hk3 & _).
    assert (i ≠ k) as Hik.
    { intros ->. by destruct Hue; apply Hk2. }
    apply Hik, (Hu' i k e (child k id name dt)); try done.
    rewrite Hk3; [done|done|]. by apply lookup_lt_Some in He. }
  exists ino'. split; [by apply AddChild_placed|]. split; [done|].
  rewrite (exclusive_run _ _ _ _ (AddChild_placed now id name dt ino)).
  fold ino'. by rewrite Hp.
Qed.

(** X5.  [AddChild] does not look at the kind of the node.  On a file that
    passes [checkInvariants] it returns normally, leaving entries that are
    not nil, and [checkInvariants] then panics with "Non-nil entries in a
    file.". *)
Theorem AddChild_on_file_panics now id name dt ino :
  dir ino = false →
  checkInvariants ino = Ok tt →
  ∃ ino',
    AddChild now id name dt ino = Ok (tt, ino') ∧
    entries ino' ≠ None ∧
    exclusive (AddChild now id name dt) ino = Panic "Non-nil entries in a file.".
Proof.
  intros Hd Hinv.
  destruct (checkInvariants_Ok _ Hinv) as (Hl & Hm & Hmd & _ & _ & _).
  rewrite Hd in Hmd.
  eexists. split; [by apply AddChild_placed|]. split; [done|].
  rewrite (exclusive_run _ _ _ _ (AddChild_placed now id name dt ino)).
  unfold checkInvariants. cbn [dir linkCount attributes Mode with_table touched].
  by rewrite Hl, Hm, Hmd, Hd.
Qed.

Lemma name_borne_first name es :
  (∃ j e, es !! j = Some e ∧ Name e = name) →
  ∃ i, findChild_range name es 0 0 = (i, true) ∧ first_named name es i.
Proof.
  intros (j & e & He & Hn).
  destruct (findChild_range name es 0 0) as [i [|]] eqn:Hf.
  - exists i. split; [done|]. apply findChild_range_found in Hf as [_ Hf].
    by rewrite Nat.sub_0_r in Hf.
  - apply findChild_range_missing in Hf. by destruct (Hf _ _ He).
Qed.

(** X6.  On a directory that passes [checkInvariants], [RemoveChild] of a
    name that some slot bears leaves a node that passes [checkInvariants]
    again, so that the exclusive section completes. *)
Theorem RemoveChild_keeps_invariants now name ino :
  dir ino = true →
  checkInvariants ino = Ok tt →
  (∃ j e, table ino !! j = Some e ∧ Name e = name) →
  ∃ ino',
    exclusive (RemoveChild now name) ino = Ok (tt, ino') ∧
    checkInvariants ino' = Ok tt.
Proof.
  intros Hd Hinv Hex.
  apply invariants_of_check in Hinv as (Hl & Hm & Hk & Hdir & Hfile & Hs).
  destruct (Hdir Hd) as (Hc & Hcur & Hu).
  destruct (name_borne_first _ _ Hex) as (i & Hf & _).
  set (ino' := with_table (<[i := hole i]> (table ino)) (touched now ino)).
  assert (checkInvariants ino' = Ok tt) as Hok.
  { apply check_of_invariants. repeat split; try done.
    - by apply Hk.
    - by apply cursors_ok_insert.
    - by apply names_unique_insert_unused.
    - intros Hfalse. cbn in Hfalse. congruence. }
  exists ino'. split; [|done].
  rewrite (exclusive_run _ _ _ _ (RemoveChild_found now name ino i Hd Hf)).
  fold ino'. by rewrite Hok.
Qed.

(** X1.  A node made by [newInode] passes [checkInvariants] exactly when the
    mode it is given has no bit besides the permission bits and the
    directory bit, and the size it is given is zero: the kind is taken from
    the directory bit, and entries and contents start nil. *)
Theorem newInode_invariants now attrs :
  checkInvariants (newInode now attrs) = Ok tt ↔
  Z.land (Mode attrs) (not_uint32 (Z.lor ModePerm ModeDir)) = 0 ∧
  Size attrs = 0.
Proof.
  split.
  - intros (_ & Hm & _ & _ & _ & Hs)%invariants_of_check. by split.
  - intros [Hm Hs]. apply check_of_invariants. unfold invariants, newInode.
    cbn [dir linkCount attributes entries contents Size Mode].
    split; [lia|]. split; [done|]. split.
    { destruct (land_ModeDir (Mode attrs)) as [H0|H1].
      - rewrite H0. by split.
      - rewrite H1. by split. }
    split; [|by split].
    intros _. split; [done|]. split.
    + intros i e. unfold table. simpl. by rewrite lookup_nil.
    + intros i j a b. unfold table. simpl. by rewrite lookup_nil.
Qed.

(** ** Lookups after mutations *)

Lemma placed_lookup id name dt es j e :
  placed id name dt es !! j = Some e →
  es !! j = Some e ∨ e = child j id name dt.
Proof.
  intros He. destruct (placed_slot id name dt es) as (k & Hk1 & _ & Hk3 & Hk4 & Hk5).
  destruct (decide (j = k)) as [->|Hjk].
  - right. congruence.
  - left. rewrite <- Hk3; [done|done|].
    apply lookup_lt_Some in He. lia.
Qed.

(** X7.  On a directory no slot of which bears [name], [LookUpChild name]
    after [AddChild id name dt] finds the child and returns [id]. *)
Theorem AddChild_then_LookUpChild now id name dt ino :
  dir ino = true →
  no_named name (table ino) →
  ∃ ino',
    AddChild now id name dt ino = Ok (tt, ino') ∧
    LookUpChild name ino' = Ok (id, true, ino').
Proof.
  intros Hd Hnone. eexists. split; [by apply AddChild_placed|].
  destruct (placed_slot id name dt (table ino)) as (k & Hk1 & _ & Hk3 & Hk4 & _).
  apply (LookUpChild_found _ _ k (child k id name dt)); [done| |done].
  rewrite table_with_table. split; [by eexists|].
  intros j e Hj He. rewrite Hk3 in He by lia. by apply (Hnone j).
Qed.

(** X8.  On a directory whose unused slots bear the empty name, [AddChild]
    under [name] does not change what [LookUpChild] returns for any other
    name that is not empty. *)
Theorem AddChild_keeps_other_lookups now id name dt name' ino :
  dir ino = true →
  holes_anonymous (table ino) →
  name' ≠ name →
  name' ≠ "" →
  ∃ ino' r,
    AddChild now id name dt ino = Ok (tt, ino') ∧
    LookUpChild name' ino = Ok (r, ino) ∧
    LookUpChild name' ino' = Ok (r, ino').
Proof.
  intros Hd Hanon Hne Hnz.
  exists (with_table (placed id name dt (table ino)) (touched now ino)).
  destruct (placed_slot id name dt (table ino)) as (k & Hk1 & Hk2 & Hk3 & Hk4 & _).
  destruct (findChild_range name' (table ino) 0 0) as [i [|]] eqn:Hf.
  - apply findChild_range_found in Hf as [_ Hfirst]. rewrite Nat.sub_0_r in Hfirst.
    destruct Hfirst as [[e [He Hn]] Hlow].
    assert (i ≠ k) as Hik.
    { intros ->. specialize (Hk2 e He). rewrite (Hanon _ _ He Hk2) in Hn. congruence. }
    exists (Inode e, true). split; [by apply AddChild_placed|]. split.
    + apply (LookUpChild_found _ _ i e); [done| |done]. split; [by exists e|done].
    + apply (LookUpChild_found _ _ i e); [done| |].
      * rewrite table_with_table. split.
        -- exists e. split; [|done]. rewrite Hk3; [done|done|by apply lookup_lt_Some in He].
        -- intros j e' Hj He'. apply placed_lookup in He' as [He'| ->].
           ++ by apply (Hlow j).
           ++ simpl. congruence.
      * rewrite table_with_table. rewrite Hk3; [done|done|by apply lookup_lt_Some in He].
  - apply findChild_range_missing in Hf.
    exists (0, false). split; [by apply AddChild_placed|]. split.
    + by apply LookUpChild_missing.
    + apply LookUpChild_missing; [done|]. rewrite table_with_table.
      intros j e' He'. apply placed_lookup in He' as [He'| ->].
      * by apply (Hf j).
      * simpl. congruence.
Qed.

(** X9.  On a directory that passes [checkInvariants] and whose unused slots
    bear the empty name, after [RemoveChild] of a non-empty name in use
    [LookUpChild] no longer finds the name, and a second [RemoveChild] of it
    panics with "Unknown child". *)
Theorem RemoveChild_then_LookUpChild now now' name ino :
  dir ino = true →
  checkInvariants ino = Ok tt →
  holes_anonymous (table ino) →
  name ≠ "" →
  name_in_use name (table ino) →
  ∃ ino',
    RemoveChild now name ino = Ok (tt, ino') ∧
    LookUpChild name ino' = Ok (0, false, ino') ∧
    RemoveChild now' name ino' = Panic "Unknown child".
Proof.
  intros Hd Hinv Hanon Hnz (i0 & e0 & He0 & Hue0 & Hne0).
  apply invariants_of_check in Hinv as (_ & _ & _ & Hdir & _).
  destruct (Hdir Hd) as (_ & _ & Hu).
  destruct (name_borne_first name (table ino)) as (i & Hf & [[e [He Hn]] _]);
    [by exists i0, e0|].
  assert (Type_ e ≠ DT_Unknown) as Hue.
  { intros Hty. rewrite (Hanon _ _ He Hty) in Hn. congruence. }
  assert (no_named name (<[i := hole i]> (table ino))) as Hnone.
  { intros j b Hb Hnb.
    apply list_lookup_insert_Some in Hb as [(-> & <- & _)|[Hij Hb]].
    - simpl in Hnb. congruence.
    - assert (Type_ b ≠ DT_Unknown) as Hub.
      { intros Hty. rewrite (Hanon _ _ Hb Hty) in Hnb. congruence. }
      apply Hij. apply (Hu i j e b); congruence. }
  eexists. split; [by apply RemoveChild_found|]. split.
  - by apply LookUpChild_missing.
  - destruct (no_named_findChild _ _ Hnone) as [k Hk].
    by apply (RemoveChild_missing _ _ _ k).
Qed.

(** X10.  On a directory whose unused slots bear the empty name, [LookUpChild]
    of a non-empty name reports a match exactly when an entry in use bears
    the name, and then returns the identifier of such an entry; without a
    match it returns the zero identifier.  The node is unchanged. *)
Theorem LookUpChild_in_use name ino :
  dir ino = true →
  holes_anonymous (table ino) →
  name ≠ "" →
  ∃ id ok,
    LookUpChild name ino = Ok (id, ok, ino) ∧
    (ok = true ↔ name_in_use name (table ino)) ∧
    (ok = true →
       ∃ i e, table ino !! i = Some e ∧ Type_ e ≠ DT_Unknown ∧
              Name e = name ∧ Inode e = id) ∧
    (ok = false → id = 0).
Proof.
  intros Hd Hanon Hnz.
  destruct (findChild_range name (table ino) 0 0) as [i [|]] eqn:Hf.
  - apply findChild_range_found in Hf as [_ Hfirst]. rewrite Nat.sub_0_r in Hfirst.
    pose proof Hfirst as [[e [He Hn]] _].
    assert (Type_ e ≠ DT_Unknown) as Hue.
    { intros Hty. rewrite (Hanon _ _ He Hty) in Hn. congruence. }
    exists (Inode e), true. split; [by apply (LookUpChild_found _ _ i)|].
    split; [split; [intros _; by exists i, e|done]|].
    split; [intros _; by exists i, e|done].
  - apply findChild_range_missing in Hf.
    exists 0, false. split; [by apply LookUpChild_missing|].
    split; [|done]. split; [done|].
    intros (j & e & He & _ & Hn). by destruct (Hf j e).
Qed.

(** ** Unused slots *)

Lemma holes_canonical_anonymous es : holes_canonical es → holes_anonymous es.
Proof. intros Hc i e He Hty. by rewrite (Hc i e He Hty). Qed.

(** X11.  From a directory whose unused slots are all the marker of
    [RemoveChild] (cursor of the slot, identifier zero, empty name), as in a
    new directory, any sequence of AddChild with entry types other than
    Unknown and of RemoveChild leaves a table whose unused slots are all that
    marker again, hence bear the empty name. *)
Theorem holes_stay_canonical ops ino ino' :
  dir ino = true →
  holes_canonical (table ino) →
  adds_in_use ops →
  run_ops ops ino = Ok (tt, ino') →
  holes_canonical (table ino') ∧ holes_anonymous (table ino').
Proof.
  intros Hd Hh Hops Hrun.
  assert (holes_canonical (table ino')) as Hgoal;
    [|split; [done|by apply holes_canonical_anonymous]].
  revert ino Hd Hh Hrun. induction ops as [|op ops IH]; intros ino Hd Hh Hrun.
  - by injection Hrun as <-.
  - apply run_ops_cons in Hrun as [ino1 [Hop Hrest]].
    destruct (run_op_slots _ _ _ Hd Hop) as (Hd1 & _).
    assert (adds_in_use ops) as Hops'.
    { intros now id name dt Hin. apply (Hops now id name dt). by right. }
    apply (IH Hops' ino1 Hd1); [|done].
    destruct op as [now id name dt|now name]; simpl in Hop.
    + rewrite AddChild_placed in Hop. injection Hop as <-.
      rewrite table_with_table. intros i e He Hty.
      apply placed_lookup in He as [He| ->]; [by apply Hh|].
      simpl in Hty. destruct (Hops now id name dt); [by left|done].
    + destruct (findChild_range name (table ino) 0 0) as [k [|]] eqn:Hf.
      * rewrite (RemoveChild_found _ _ _ _ Hd Hf) in Hop. injection Hop as <-.
        rewrite table_with_table. intros i e He Hty.
        apply list_lookup_insert_Some in He as [(-> & <- & _)|[_ He]]; [done|].
        by apply Hh.
      * by rewrite (RemoveChild_missing _ _ _ _ Hd Hf) in Hop.
Qed.

(** ** Len *)

Lemma Len_loop_count es n :
  Len_loop es n = n + Z.of_nat (length (filter (λ e, Type_ e ≠ DT_Unknown) es)).
Proof.
  revert n. induction es as [|e es IH]; intros n; simpl; [lia|].
  rewrite IH. unfold is_unknown. case_bool_decide as Hty.
  - by rewrite filter_cons_False by (by intros []).
  - rewrite filter_cons_True by done. simpl. lia.
Qed.

Lemma Len_run ino :
  Len ino = Ok (Z.of_nat (length (listed 0 ino)), ino).
Proof.
  unfold Len, bind, get, ret. rewrite Len_loop_count. unfold listed, table.
  simpl. by rewrite drop_0.
Qed.

(** X12.  [Len] counts the entries in use: after [AddChild] with an entry
    type other than Unknown it returns one more than before, whether the
    child filled an unused slot or was appended. *)
Theorem Len_after_AddChild now id name dt ino :
  dt ≠ DT_Unknown →
  ∃ ino' n,
    AddChild now id name dt ino = Ok (tt, ino') ∧
    Len ino = Ok (n, ino) ∧
    Len ino' = Ok (n + 1, ino').
Proof.
  intros Hdt. eexists. eexists. split; [by apply AddChild_placed|].
  split; [by apply Len_run|]. rewrite Len_run. do 2 f_equal.
  unfold listed. rewrite !drop_0, table_with_table. unfold placed.
  destruct (find_gap (table ino) 0) as [k|] eqn:Hg.
  - destruct (find_gap_Some _ _ _ Hg) as [_ [[h [Hh Hu]] _]].
    rewrite Nat.sub_0_r in Hh. apply lookup_lt_Some in Hh as Hlt.
    rewrite insert_take_drop by done.
    rewrite <- (take_drop_middle _ _ _ Hh) at 3.
    rewrite !filter_app, !length_app.
    rewrite filter_cons_True by done. rewrite filter_cons_False by (by intros []).
    simpl. lia.
  - rewrite filter_app, length_app. rewrite filter_cons_True by done. simpl. lia.
Qed.

(** X13.  After [RemoveChild] has marked the slot it found as unused, [Len]
    returns one less than before when the entry of that slot was in use,
    and the same number when the slot was unused already. *)
Theorem Len_after_RemoveChild now name ino i e :
  dir ino = true →
  first_named name (table ino) i →
  table ino !! i = Some e →
  ∃ ino' n,
    RemoveChild now name ino = Ok (tt, ino') ∧
    Len ino' = Ok (n, ino') ∧
    Len ino = Ok ((if is_unknown e then n else n + 1), ino).
Proof.
  intros Hd Hfirst He. eexists. eexists.
  split; [apply RemoveChild_found; [done|by apply first_named_findChild]|].
  split; [by apply Len_run|]. rewrite Len_run. do 2 f_equal.
  unfold listed. rewrite !drop_0, table_with_table.
  apply lookup_lt_Some in He as Hlt.
  rewrite insert_take_drop by done.
  rewrite <- (take_drop_middle (table ino) i e He) at 1.
  rewrite !filter_app, !length_app.
  rewrite (filter_cons_False _ (hole i)) by (by intros []).
  unfold is_unknown. case_bool_decide as Hty.
  - by rewrite filter_cons_False by (by intros []).
  - rewrite filter_cons_True by done. simpl. lia.
Qed.

(** ** Files under the invariant check *)

(** X14.  On a file that passes [checkInvariants], [WriteAt] at an offset that
    is not negative, with data ending within the range of an [int], when the
    runtime provides the padding that [make] asks for, if the contents must
    grow, leaves a node that passes [checkInvariants] again: the exclusive
    section completes and returns the length of the data with no error. *)
Theorem WriteAt_keeps_invariants now mem p off ino :
  dir ino = false →
  checkInvariants ino = Ok tt →
  0 ≤ off →
  off + Z.of_nat (length p) < 2 ^ 63 →
  padding_granted mem (off + Z.of_nat (length p)) ino →
  ∃ ino',
    exclusive (WriteAt now mem p off) ino = Ok (Z.of_nat (length p), None, ino') ∧
    checkInvariants ino' = Ok tt.
Proof.
  intros Hd Hinv Hoff Hfit Hmem.
  destruct (WriteAt_run now mem p off ino Hd Hoff Hfit Hmem) as (c & Hrun & Hc).
  apply invariants_of_check in Hinv as (Hl & Hm & Hk & Hdir & Hfile & Hs).
  eexists. rewrite (exclusive_run _ _ _ _ Hrun).
  match goal with |- context [checkInvariants ?i] =>
    assert (checkInvariants i = Ok tt) as Hok end.
  { apply check_of_invariants. rewrite Hd in Hk.
    split; [done|]. split; [done|]. split; [done|]. split; [done|].
    split; [intros _; by apply Hfile|].
    cbn [attributes contents Size]. unfold len at 2. rewrite Hc.
    set (old := elems (contents ino)) in *.
    assert (Z.of_nat (length old) = len (contents ino)) as Hold by done.
    rewrite !length_app, length_drop, length_take, length_app, length_replicate.
    destruct (Z.ltb_spec (len (contents ino)) (off + Z.of_nat (length p))); lia. }
  by rewrite Hok.
Qed.

(** X15.  [SetAttributes] stores a new mode as it is.  On a node that passes
    [checkInvariants], the exclusive section that sets the mode alone
    completes exactly when the new mode has no bit besides the permission
    bits and the directory bit and has the directory bit exactly if the
    node is a directory. *)
Theorem SetAttributes_mode_checked now mem m mtime ino :
  checkInvariants ino = Ok tt →
  (∃ ino', exclusive (SetAttributes now mem None (Some m) mtime) ino = Ok (tt, ino')) ↔
  Z.land m (not_uint32 (Z.lor ModePerm ModeDir)) = 0 ∧
  (dir ino = true ↔ Z.land m ModeDir = ModeDir).
Proof.
  intros Hinv.
  assert (SetAttributes now mem None (Some m) mtime ino = Ok (tt,
            mkInode (dir ino) (linkCount ino)
              (mkAttrs (Size (attributes ino)) m (or_else mtime now)
                       (Crtime (attributes ino)))
              (entries ino) (contents ino))) as Hrun.
  { by rewrite SetAttributes_run. }
  rewrite (exclusive_run _ _ _ _ Hrun).
  apply invariants_of_check in Hinv as (Hl & Hm & Hk & Hdir & Hfile & Hs).
  match goal with |- context [checkInvariants ?i] =>
    destruct (checkInvariants i) as [[]|msg] eqn:Hchk end.
  - apply invariants_of_check in Hchk as (_ & Hm' & Hk' & _).
    split; [done|]. intros _. by eexists.
  - split; [by intros [? ?]|]. intros [Hm' Hk'].
    assert (Ok tt = @Panic unit msg) as Habs; [|done].
    rewrite <- Hchk. symmetry. by apply check_of_invariants.
Qed.

(** ** Resizing twice *)

(** X16.  Bytes cut off by a resize do not come back: after [SetAttributes]
    to a size [n1] within the contents and then to a size [n2] of at least
    [n1], within the range of an [int] and with the [n2 - n1] bytes of
    padding provided by the runtime, the contents are their first [n1] bytes
    followed by [n2 - n1] zero bytes, and the size attribute is [n2]. *)
Theorem SetAttributes_cut_then_grow now1 now2 mem1 mem2 n1 n2 ino :
  0 ≤ n1 →
  n1 ≤ len (contents ino) →
  n1 ≤ n2 →
  n2 < 2 ^ 63 →
  (n1 < n2 → granted mem2 (n2 - n1)) →
  ∃ ino1 ino2,
    SetAttributes now1 mem1 (Some n1) None None ino = Ok (tt, ino1) ∧
    SetAttributes now2 mem2 (Some n2) None None ino1 = Ok (tt, ino2) ∧
    Size (attributes ino2) = n2 ∧
    elems (contents ino2) =
      take (Z.to_nat n1) (elems (contents ino)) ++
      replicate (Z.to_nat (n2 - n1)) x00.
Proof.
  intros H0 H1 H12 H2 Hmem. eexists. eexists.
  split.
  { apply SetAttributes_run. intros ? [= <-]. split; [lia|]. intros ?. lia. }
  split.
  { apply SetAttributes_run. intros ? [= <-]. split; [lia|].
    unfold padding_granted. cbn [contents]. by rewrite len_resized by lia. }
  split; [done|]. cbn [contents]. unfold len in H1.
  rewrite !elems_resized by lia.
  rewrite (take_app_le (elems (contents ino))) by lia.
  rewrite take_ge.
  - rewrite length_take. do 2 f_equal. lia.
  - rewrite length_app, length_replicate, length_take. lia.
Qed.

(** ** Reading in pieces *)

(** X17.  On a file, when the contents hold at least len(p1) bytes from
    [off] on, one [ReadAt] into a destination made of [p1] followed by [p2]
    gives what a full [ReadAt] into [p1] at [off] followed by a [ReadAt] into
    [p2] at [off + len(p1)] give: the destinations one after the other, the
    sum of the counts, and the error of the second read. *)
Theorem ReadAt_in_two_pieces p1 p2 off ino :
  dir ino = false →
  0 ≤ off →
  off + Z.of_nat (length p1) ≤ len (contents ino) →
  ∃ q1 q2 n2 err,
    ReadAt p1 off ino = Ok (q1, Z.of_nat (length p1), None, ino) ∧
    ReadAt p2 (off + Z.of_nat (length p1)) ino = Ok (q2, n2, err, ino) ∧
    ReadAt (p1 ++ p2) off ino =
      Ok (q1 ++ q2, Z.of_nat (length p1) + n2, err, ino).
Proof.
  intros Hd Hoff Hin. unfold len in Hin.
  set (c := elems (contents ino)) in *.
  set (src := drop (Z.to_nat off) c).
  assert (length src = (length c - Z.to_nat off)%nat) as Hsrc by apply length_drop.
  set (n2 := Nat.min (length p2) (length (drop (length p1) src))).
  assert (length (drop (length p1) src) = (length src - length p1)%nat) as Hsrc2
    by apply length_drop.
  exists (take (length p1) src), (take n2 (drop (length p1) src) ++ drop n2 p2),
         (Z.of_nat n2),
         (if Z.of_nat n2 <? Z.of_nat (length p2) then Some io_EOF else None).
  split; [|split].
  - rewrite ReadAt_run by (done || (unfold len; fold c; lia)). fold c src.
    replace (Nat.min (length p1) (length src)) with (length p1) by lia.
    by rewrite drop_all, app_nil_r, Z.ltb_irrefl.
  - rewrite ReadAt_run by (done || lia || (unfold len; fold c; lia)). fold c.
    replace (Z.to_nat (off + Z.of_nat (length p1)))
      with (Z.to_nat off + length p1)%nat by lia.
    by rewrite <- drop_drop.
  - rewrite ReadAt_run by (done || (unfold len; fold c; lia)). fold c src.
    rewrite length_app.
    replace (Nat.min (length p1 + length p2) (length src))
      with (length p1 + n2)%nat by (unfold n2; lia).
    rewrite <- take_take_drop, drop_app_add, <- app_assoc.
    replace (Z.of_nat (length p1 + n2) <? Z.of_nat (length p1 + length p2))
      with (Z.of_nat n2 <? Z.of_nat (length p2)).
    2:{ destruct (Z.ltb_spec (Z.of_nat n2) (Z.of_nat (length p2)));
        destruct (Z.ltb_spec (Z.of_nat (length p1 + n2))
                             (Z.of_nat (length p1 + length p2))); (done || lia). }
    by rewrite Nat2Z.inj_add.
Qed.

(** ** Listings compared *)

Section Listings.
Variable serialize : Dirent → list byte.

(** X18.  On a directory, a [ReadDir] with a smaller bound returns the first
    bytes of what a [ReadDir] at the same cursor with a larger bound
    returns. *)
Theorem ReadDir_larger_bound_extends cursor size1 size2 ino :
  dir ino = true →
  0 ≤ cursor →
  0 ≤ size1 →
  size1 ≤ size2 →
  ∃ data1 data2,
    ReadDir serialize cursor size1 ino = Ok (data1, None, ino) ∧
    ReadDir serialize cursor size2 ino = Ok (data2, None, ino) ∧
    data1 = take (Z.to_nat size1) data2.
Proof.
  intros Hd Hc H1 H12. eexists. eexists.
  split; [by apply ReadDir_run|]. split; [apply ReadDir_run; (done || lia)|].
  rewrite take_take. f_equal. lia.
Qed.

(** X19.  On a directory, the unbounded listing from a later cursor is the
    end of the unbounded listing from an earlier cursor. *)
Theorem ReadDir_later_cursor_is_tail cursor1 cursor2 unbounded ino :
  dir ino = true →
  0 ≤ cursor1 →
  cursor1 ≤ cursor2 →
  Z.of_nat (length (wire serialize (listed cursor1 ino))) ≤ unbounded →
  ∃ data1 data2,
    ReadDir serialize cursor1 unbounded ino = Ok (data1, None, ino) ∧
    ReadDir serialize cursor2 unbounded ino = Ok (data2, None, ino) ∧
    data2 `suffix_of` data1.
Proof.
  intros Hd Hc1 Hc12 Hbig.
  assert (listed cursor1 ino =
          filter (λ e, Type_ e ≠ DT_Unknown)
                 (take (Z.to_nat cursor2 - Z.to_nat cursor1)
                       (drop (Z.to_nat cursor1) (table ino))) ++
          listed cursor2 ino) as Hsplit.
  { unfold listed. rewrite <- filter_app. f_equal.
    rewrite <- (take_drop (Z.to_nat cursor2 - Z.to_nat cursor1)
                  (drop (Z.to_nat cursor1) (table ino))) at 1.
    f_equal. rewrite drop_drop. f_equal. lia. }
  exists (wire serialize (listed cursor1 ino)), (wire serialize (listed cursor2 ino)).
  split; [by apply ReadDir_unbounded|]. split.
  - apply ReadDir_unbounded; [done|lia|].
    rewrite Hsplit, wire_app, length_app in Hbig. lia.
  - rewrite Hsplit, wire_app. by apply suffix_app_r.
Qed.
End Listings.

(** ** Calls on the wrong kind of node *)

(** X24.  On a directory, [ReadAt] and [WriteAt] panic, whatever their
    arguments. *)
Theorem file_methods_on_directory now mem p off ino :
  dir ino = true →
  ReadAt p off ino = Panic "ReadAt called on directory." ∧
  WriteAt now mem p off ino = Panic "WriteAt called on directory.".
Proof.
  intros Hd. unfold ReadAt, WriteAt, bind, get. by rewrite Hd.
Qed.

(** X23.  On a file, [ReadDir] panics, and [LookUpChild] and [RemoveChild]
    panic in [findChild], whatever their arguments. *)
Theorem directory_methods_on_file serialize now name cursor size ino :
  dir ino = false →
  ReadDir serialize cursor size ino = Panic "ReadDir called on non-directory." ∧
  LookUpChild name ino = Panic "findChild called on non-directory." ∧
  RemoveChild now name ino = Panic "findChild called on non-directory.".
Proof.
  intros Hd. unfold ReadDir, LookUpChild, RemoveChild, findChild, bind, get, set_Mtime.
  cbn [dir]. by rewrite Hd.
Qed.

(** ** Writing at the end *)

(** X20.  On a file, [WriteAt] at the offset len(contents) appends the data to
    the contents, and a [ReadAt] at offset 0 into a destination of the new
    length returns the old contents followed by the data, with no error.
    The padding that [make] is asked for, and that the runtime is to
    provide, is as long as the data. *)
Theorem WriteAt_at_end_appends now mem p ino :
  dir ino = false →
  len (contents ino) + Z.of_nat (length p) < 2 ^ 63 →
  padding_granted mem (len (contents ino) + Z.of_nat (length p)) ino →
  ∃ ino',
    WriteAt now mem p (len (contents ino)) ino = Ok (Z.of_nat (length p), None, ino') ∧
    elems (contents ino') = elems (contents ino) ++ p ∧
    ∀ q, length q = length (elems (contents ino) ++ p) →
         ReadAt q 0 ino' = Ok (elems (contents ino) ++ p,
                               Z.of_nat (length q), None, ino').
Proof.
  intros Hd Hfit Hpad.
  assert (0 ≤ len (contents ino)) as Hpos by (unfold len; lia).
  destruct (WriteAt_run now mem p _ ino Hd Hpos Hfit Hpad) as (c & Hrun & Hc).
  assert (elems c = elems (contents ino) ++ p) as Hc'.
  { rewrite Hc. unfold len. rewrite Nat2Z.id.
    set (old := elems (contents ino)).
    rewrite take_app_length, drop_ge, app_nil_r; [done|].
    rewrite length_app, length_replicate. lia. }
  eexists. split; [exact Hrun|]. split; [done|].
  intros q Hq. rewrite ReadAt_run; [|done|done|unfold len; lia].
  cbn [contents]. rewrite drop_0, Hc', <- Hq, Nat.min_id.
  rewrite Hq, take_ge, drop_ge, app_nil_r, Z.ltb_irrefl by lia. by rewrite <- Hq.
Qed.

Section Listings_after_mutations.
Variable serialize : Dirent → list byte.

Lemma wire_cons e es :
  wire serialize (e :: es) = serialize e ++ wire serialize es.
Proof. done. Qed.

(** X21.  On a directory, [AddChild] with an entry type other than Unknown
    puts the entry into slot [k], the lowest unused slot or else the end of
    the table, and leaves the slots below and above [k] as they were.  The
    unbounded listing before the call is the wire forms of the entries in
    use of the slots below [k] followed by those of the slots above [k], in
    the order of the slots; the listing after the call is the same with the
    wire form of the new entry, which carries the cursor [k + 1], between
    the two. *)
Theorem ReadDir_after_AddChild now id name dt unbounded ino :
  dir ino = true →
  dt ≠ DT_Unknown →
  (∀ k, Z.of_nat (length (wire serialize (listed 0 ino)) +
                  length (serialize (child k id name dt))) ≤ unbounded) →
  ∃ ino' k,
    AddChild now id name dt ino = Ok (tt, ino') ∧
    (first_hole (table ino) k ∨
     (no_hole (table ino) ∧ k = length (table ino))) ∧
    table ino' !! k = Some (child k id name dt) ∧
    take k (table ino') = take k (table ino) ∧
    drop (S k) (table ino') = drop (S k) (table ino) ∧
    ReadDir serialize 0 unbounded ino =
      Ok (wire serialize (used_below k (table ino)) ++
          wire serialize (used_above k (table ino)), None, ino) ∧
    ReadDir serialize 0 unbounded ino' =
      Ok (wire serialize (used_below k (table ino)) ++
          serialize (child k id name dt) ++
          wire serialize (used_above k (table ino)), None, ino').
Proof.
  intros Hd Hdt Hbig.
  assert (∃ k, (first_hole (table ino) k ∨
                (no_hole (table ino) ∧ k = length (table ino))) ∧
               placed id name dt (table ino) !! k = Some (child k id name dt) ∧
               take k (placed id name dt (table ino)) = take k (table ino) ∧
               drop (S k) (placed id name dt (table ino)) = drop (S k) (table ino) ∧
               listed 0 ino = used_below k (table ino) ++ used_above k (table ino) ∧
               filter (λ e, Type_ e ≠ DT_Unknown) (placed id name dt (table ino)) =
                 used_below k (table ino) ++
                 child k id name dt :: used_above k (table ino))
    as (k & Hwhere & Hk & Htake & Hdrop & Hold & Hnew).
  { unfold listed, placed, used_below, used_above. rewrite drop_0.
    destruct (find_gap (table ino) 0) as [k|] eqn:Hg.
    - destruct (find_gap_Some _ _ _ Hg) as [_ Hfirst].
      rewrite Nat.sub_0_r in Hfirst.
      pose proof Hfirst as [[h [Hh Hu]] _].
      apply lookup_lt_Some in Hh as Hlt.
      exists k. split; [by left|].
      split; [by apply list_lookup_insert_eq|].
      split; [by apply take_insert_ge|].
      split; [apply drop_insert_lt; lia|]. split.
      + rewrite <- (take_drop_middle _ _ _ Hh) at 1.
        rewrite filter_app. by rewrite filter_cons_False by (by intros []).
      + rewrite insert_take_drop by done.
        rewrite filter_app. by rewrite filter_cons_True by done.
    - exists (length (table ino)).
      split; [right; split; [by eapply find_gap_None|done]|]. split.
      { rewrite lookup_app_r by lia. by rewrite Nat.sub_diag. }
      split; [by rewrite take_app_length, take_ge by lia|].
      split; [by rewrite !drop_ge by (rewrite ?length_app; simpl; lia)|].
      rewrite take_ge, drop_ge, app_nil_r by lia. split; [done|].
      rewrite filter_app. by rewrite filter_cons_True by done. }
  exists (with_table (placed id name dt (table ino)) (touched now ino)), k.
  split; [by apply AddChild_placed|]. split; [done|].
  rewrite !table_with_table.
  split; [done|]. split; [done|]. split; [done|].
  specialize (Hbig k). rewrite Hold, wire_app, !length_app in Hbig.
  split.
  - rewrite ReadDir_unbounded; [by rewrite Hold, wire_app|done|lia|].
    rewrite Hold, wire_app, length_app. lia.
  - rewrite ReadDir_unbounded; [|done|lia|].
    + unfold listed. rewrite drop_0, table_with_table.
      by rewrite Hnew, wire_app, wire_cons.
    + unfold listed. rewrite drop_0, table_with_table.
      rewrite Hnew, wire_app, wire_cons, !length_app. lia.
Qed.

(** X22.  On a directory, when [RemoveChild] finds an entry in use, the
    unbounded listing after it is the listing before it without the wire
    form of that entry; the other entries keep their order and their wire
    forms. *)
Theorem ReadDir_after_RemoveChild now name unbounded ino i e :
  dir ino = true →
  first_named name (table ino) i →
  table ino !! i = Some e →
  Type_ e ≠ DT_Unknown →
  Z.of_nat (length (wire serialize (listed 0 ino))) ≤ unbounded →
  ∃ ino' before after,
    RemoveChild now name ino = Ok (tt, ino') ∧
    ReadDir serialize 0 unbounded ino =
      Ok (wire serialize before ++ serialize e ++ wire serialize after,
          None, ino) ∧
    ReadDir serialize 0 unbounded ino' =
      Ok (wire serialize before ++ wire serialize after, None, ino').
Proof.
  intros Hd Hfirst He Hue Hbig.
  apply lookup_lt_Some in He as Hlt.
  assert (listed 0 ino = filter (λ e, Type_ e ≠ DT_Unknown) (take i (table ino)) ++
                         e :: filter (λ e, Type_ e ≠ DT_Unknown) (drop (S i) (table ino))) as Hold.
  { unfold listed. rewrite drop_0.
    rewrite <- (take_drop_middle _ _ _ He) at 1.
    rewrite filter_app. by rewrite filter_cons_True by done. }
  assert (filter (λ e, Type_ e ≠ DT_Unknown) (<[i := hole i]> (table ino)) =
          filter (λ e, Type_ e ≠ DT_Unknown) (take i (table ino)) ++
          filter (λ e, Type_ e ≠ DT_Unknown) (drop (S i) (table ino))) as Hnew.
  { rewrite insert_take_drop by done.
    rewrite filter_app. by rewrite filter_cons_False by (by intros []). }
  exists (with_table (<[i := hole i]> (table ino)) (touched now ino)),
         (filter (λ e, Type_ e ≠ DT_Unknown) (take i (table ino))),
         (filter (λ e, Type_ e ≠ DT_Unknown) (drop (S i) (table ino))).
  split; [apply RemoveChild_found; [done|by apply first_named_findChild]|].
  rewrite Hold, wire_app, wire_cons, !length_app in Hbig.
  split.
  - rewrite ReadDir_unbounded; [by rewrite Hold, wire_app, wire_cons|done|lia|].
    rewrite Hold, wire_app, wire_cons, !length_app. lia.
  - rewrite ReadDir_unbounded; [|done|lia|].
    + unfold listed. rewrite drop_0, table_with_table.
      by rewrite Hnew, wire_app.
    + unfold listed. rewrite drop_0, table_with_table.
      rewrite Hnew, wire_app, length_app. lia.
Qed.
End Listings_after_mutations.

(** ** Arguments out of range *)

(** X26.  On a file, a negative offset makes both [ReadAt] and [WriteAt]
    panic, where an offset beyond the end of the contents is an ordinary
    end-of-data result of [ReadAt].  The panic of [ReadAt] is on the bounds
    of the slice, and so is that of [WriteAt] when the runtime provides the
    padding that is made before the slicing, if there is any. *)
Theorem negative_offset_panics now mem p off ino :
  dir ino = false →
  off < 0 →
  ReadAt p off ino = Panic "slice bounds out of range" ∧
  (∃ msg, WriteAt now mem p off ino = Panic msg) ∧
  (padding_granted mem (to_int (off + Z.of_nat (length p))) ino →
     WriteAt now mem p off ino = Panic "slice bounds out of range") ∧
  ReadAt p (len (contents ino) + 1) ino = Ok (p, 0, Some io_EOF, ino).
Proof.
  intros Hd Hneg.
  split; [by apply ReadAt_negative_offset|].
  split; [by apply WriteAt_negative_offset|].
  split; [intros Hmem; by apply WriteAt_negative_offset_bounds|].
  apply ReadAt_past_end; [done|lia].
Qed.

(** ** The further statements at the sample nodes *)

Lemma sample_dir_checked : checkInvariants sample_dir = Ok tt.
Proof. vm_compute. reflexivity. Qed.

Lemma sample_file_checked : checkInvariants sample_file = Ok tt.
Proof. vm_compute. reflexivity. Qed.

Lemma sample_dir_holes_canonical : holes_canonical (table sample_dir).
Proof.
  intros [|[|i]] e; simpl; [by intros [= <-]|by intros [= <-]|done].
Qed.

Lemma sample_dir_no_c : no_named "c" (table sample_dir).
Proof. intros [|[|j]] e; simpl; [by intros [= <-]..|done]. Qed.

Lemma sample_dir_c_free : ¬ name_in_use "c" (table sample_dir).
Proof. intros (i & e & He & _ & Hn). by apply (sample_dir_no_c i e). Qed.

Lemma sample_dir_b_in_use : name_in_use "b" (table sample_dir).
Proof. by exists 1%nat, (child 1 2 "b" DT_File). Qed.

Lemma newcomers_in_use : adds_in_use newcomers.
Proof.
  intros now id name dt Hin.
  unfold newcomers in Hin.
  repeat (apply elem_of_cons in Hin as [[= -> -> -> ->]|Hin]; [done|]).
  by apply elem_of_nil in Hin.
Qed.

Lemma sample_serialize_room k :
  Z.of_nat (length (wire sample_serialize (listed 0 sample_dir)) +
            length (sample_serialize (child k 3 "c" DT_File))) ≤ 1000.
Proof.
  unfold sample_serialize at 2. cbn [Name child].
  rewrite !length_app. destruct (Byte.of_N _); simpl; lia.
Qed.

Lemma AddChild_keeps_invariants_witness :
  ∃ ino', exclusive (AddChild 4 3 "c" DT_File) sample_dir = Ok (tt, ino') ∧
          checkInvariants ino' = Ok tt.
Proof.
  destruct (AddChild_keeps_invariants 4 3 "c" DT_File sample_dir)
    as (ino' & Hrun & Hok & _);
    [reflexivity|exact sample_dir_checked|discriminate|exact sample_dir_c_free|].
  exists ino'. split; [exact Hrun|exact Hok].
Defined.

Lemma AddChild_duplicate_name_panics_witness :
  exclusive (AddChild 4 3 "b" DT_File) sample_dir = Panic "Duplicate name".
Proof.
  destruct (AddChild_duplicate_name_panics 4 3 "b" DT_File sample_dir)
    as (ino' & _ & _ & Hp);
    [reflexivity|exact sample_dir_checked|discriminate|exact sample_dir_b_in_use|].
  exact Hp.
Defined.

Lemma AddChild_on_file_panics_witness :
  exclusive (AddChild 4 3 "c" DT_File) empty_file
    = Panic "Non-nil entries in a file.".
Proof.
  destruct (AddChild_on_file_panics 4 3 "c" DT_File empty_file)
    as (ino' & _ & _ & Hp); [reflexivity|vm_compute; reflexivity|].
  exact Hp.
Defined.

Lemma RemoveChild_keeps_invariants_witness :
  ∃ ino', exclusive (RemoveChild 3 "b") sample_dir = Ok (tt, ino') ∧
          checkInvariants ino' = Ok tt.
Proof.
  apply (RemoveChild_keeps_invariants 3 "b" sample_dir);
    [reflexivity|exact sample_dir_checked|].
  exists 1%nat, (child 1 2 "b" DT_File). split; reflexivity.
Defined.

Lemma AddChild_then_LookUpChild_witness :
  ∃ ino', AddChild 4 3 "c" DT_File sample_dir = Ok (tt, ino') ∧
          LookUpChild "c" ino' = Ok (3, true, ino').
Proof.
  apply (AddChild_then_LookUpChild 4 3 "c" DT_File sample_dir);
    [reflexivity|exact sample_dir_no_c].
Defined.

Lemma AddChild_keeps_other_lookups_witness :
  ∃ ino' r, AddChild 4 3 "c" DT_File sample_dir = Ok (tt, ino') ∧
            LookUpChild "b" sample_dir = Ok (r, sample_dir) ∧
            LookUpChild "b" ino' = Ok (r, ino').
Proof.
  apply (AddChild_keeps_other_lookups 4 3 "c" DT_File "b" sample_dir);
    [reflexivity
    |exact (holes_canonical_anonymous _ sample_dir_holes_canonical)
    |discriminate|discriminate].
Defined.

Lemma RemoveChild_then_LookUpChild_witness :
  ∃ ino', RemoveChild 3 "b" sample_dir = Ok (tt, ino') ∧
          LookUpChild "b" ino' = Ok (0, false, ino') ∧
          RemoveChild 4 "b" ino' = Panic "Unknown child".
Proof.
  apply (RemoveChild_then_LookUpChild 3 4 "b" sample_dir);
    [reflexivity|exact sample_dir_checked
    |exact (holes_canonical_anonymous _ sample_dir_holes_canonical)
    |discriminate|exact sample_dir_b_in_use].
Defined.

Lemma LookUpChild_in_use_witness :
  ∃ id ok, LookUpChild "b" sample_dir = Ok (id, ok, sample_dir) ∧
           (ok = true ↔ name_in_use "b" (table sample_dir)).
Proof.
  destruct (LookUpChild_in_use "b" sample_dir) as (id & ok & Hrun & Hiff & _);
    [reflexivity
    |exact (holes_canonical_anonymous _ sample_dir_holes_canonical)
    |discriminate|].
  exists id, ok. split; [exact Hrun|exact Hiff].
Defined.

Lemma holes_stay_canonical_witness :
  holes_canonical (table sample_dir_after) ∧
  holes_anonymous (table sample_dir_after).
Proof.
  apply (holes_stay_canonical newcomers sample_dir sample_dir_after);
    [reflexivity|exact sample_dir_holes_canonical|exact newcomers_in_use
    |reflexivity].
Defined.

Lemma Len_after_AddChild_witness :
  ∃ ino' n, AddChild 4 3 "c" DT_File sample_dir = Ok (tt, ino') ∧
            Len sample_dir = Ok (n, sample_dir) ∧
            Len ino' = Ok (n + 1, ino').
Proof.
  apply (Len_after_AddChild 4 3 "c" DT_File sample_dir). discriminate.
Defined.

Lemma Len_after_RemoveChild_witness :
  ∃ ino' n, RemoveChild 3 "b" sample_dir = Ok (tt, ino') ∧
            Len ino' = Ok (n, ino') ∧
            Len sample_dir = Ok (n + 1, sample_dir).
Proof.
  apply (Len_after_RemoveChild 3 "b" sample_dir 1 (child 1 2 "b" DT_File));
    [reflexivity|exact sample_dir_b_first|reflexivity].
Defined.

Lemma WriteAt_keeps_invariants_witness :
  ∃ ino', exclusive (WriteAt 6 4096 [x01; x02; x03] 2) empty_file
            = Ok (3, None, ino') ∧
          checkInvariants ino' = Ok tt.
Proof.
  apply (WriteAt_keeps_invariants 6 4096 [x01; x02; x03] 2 empty_file);
    [reflexivity|vm_compute; reflexivity|lia|apply Z.ltb_lt; reflexivity
    |intros _; split; apply Z.leb_le; reflexivity].
Defined.

Lemma SetAttributes_mode_checked_witness :
  ∃ ino', exclusive (SetAttributes 7 4096 None (Some 384) None) sample_file
            = Ok (tt, ino').
Proof.
  apply (SetAttributes_mode_checked 7 4096 384 None sample_file);
    [exact sample_file_checked|].
  split; [reflexivity|]. split; discriminate.
Defined.

Lemma SetAttributes_cut_then_grow_witness :
  ∃ ino1 ino2,
    SetAttributes 7 4096 (Some 2) None None sample_file = Ok (tt, ino1) ∧
    SetAttributes 8 4096 (Some 4) None None ino1 = Ok (tt, ino2) ∧
    Size (attributes ino2) = 4 ∧
    elems (contents ino2) = [x0a; x0b; x00; x00].
Proof.
  apply (SetAttributes_cut_then_grow 7 8 4096 4096 2 4 sample_file);
    [lia|apply Z.leb_le; reflexivity|lia|apply Z.ltb_lt; reflexivity
    |intros _; split; apply Z.leb_le; reflexivity].
Defined.

Lemma ReadAt_in_two_pieces_witness :
  ∃ q1 q2 n2 err,
    ReadAt [x00; x00] 1 sample_file = Ok (q1, 2, None, sample_file) ∧
    ReadAt [x00; x00; x00; x00] 3 sample_file = Ok (q2, n2, err, sample_file) ∧
    ReadAt [x00; x00; x00; x00; x00; x00] 1 sample_file
      = Ok (q1 ++ q2, 2 + n2, err, sample_file).
Proof.
  apply (ReadAt_in_two_pieces [x00; x00] [x00; x00; x00; x00] 1 sample_file);
    [reflexivity|lia|apply Z.leb_le; reflexivity].
Defined.

Lemma ReadDir_larger_bound_extends_witness :
  ∃ data1 data2,
    ReadDir sample_serialize 0 2 sample_dir = Ok (data1, None, sample_dir) ∧
    ReadDir sample_serialize 0 5 sample_dir = Ok (data2, None, sample_dir) ∧
    data1 = take 2 data2.
Proof.
  apply (ReadDir_larger_bound_extends sample_serialize 0 2 5 sample_dir);
    [reflexivity|lia|lia|lia].
Defined.

Lemma ReadDir_later_cursor_is_tail_witness :
  ∃ data1 data2,
    ReadDir sample_serialize 0 1000 sample_dir = Ok (data1, None, sample_dir) ∧
    ReadDir sample_serialize 1 1000 sample_dir = Ok (data2, None, sample_dir) ∧
    data2 `suffix_of` data1.
Proof.
  apply (ReadDir_later_cursor_is_tail sample_serialize 0 1 1000 sample_dir);
    [reflexivity|lia|lia|apply Z.leb_le; reflexivity].
Defined.

Lemma file_methods_on_directory_witness :
  ReadAt [x00] 0 sample_dir = Panic "ReadAt called on directory." ∧
  WriteAt 6 4096 [x00] 0 sample_dir = Panic "WriteAt called on directory.".
Proof.
  apply (file_methods_on_directory 6 4096 [x00] 0 sample_dir). reflexivity.
Defined.

Lemma directory_methods_on_file_witness :
  ReadDir sample_serialize 0 10 sample_file
    = Panic "ReadDir called on non-directory." ∧
  LookUpChild "b" sample_file = Panic "findChild called on non-directory." ∧
  RemoveChild 3 "b" sample_file = Panic "findChild called on non-directory.".
Proof.
  apply (directory_methods_on_file sample_serialize 3 "b" 0 10 sample_file).
  reflexivity.
Defined.

Lemma WriteAt_at_end_appends_witness :
  ∃ ino', WriteAt 6 4096 [x01] 5 sample_file = Ok (1, None, ino') ∧
          elems (contents ino') = [x0a; x0b; x0c; x0d; x0e; x01].
Proof.
  destruct (WriteAt_at_end_appends 6 4096 [x01] sample_file)
    as (ino' & Hrun & Hc & _);
    [reflexivity|apply Z.ltb_lt; reflexivity
    |intros _; split; apply Z.leb_le; reflexivity|].
  exists ino'. split; [exact Hrun|exact Hc].
Defined.

Lemma ReadDir_after_AddChild_witness :
  ∃ ino' k,
    AddChild 4 3 "c" DT_File sample_dir = Ok (tt, ino') ∧
    table ino' !! k = Some (child k 3 "c" DT_File) ∧
    ReadDir sample_serialize 0 1000 sample_dir =
      Ok (wire sample_serialize (used_below k (table sample_dir)) ++
          wire sample_serialize (used_above k (table sample_dir)),
          None, sample_dir) ∧
    ReadDir sample_serialize 0 1000 ino' =
      Ok (wire sample_serialize (used_below k (table sample_dir)) ++
          sample_serialize (child k 3 "c" DT_File) ++
          wire sample_serialize (used_above k (table sample_dir)), None, ino').
Proof.
  destruct (ReadDir_after_AddChild sample_serialize 4 3 "c" DT_File 1000 sample_dir)
    as (ino' & k & Hrun & _ & Hk & _ & _ & Hold & Hnew);
    [reflexivity|discriminate|exact sample_serialize_room|].
  exists ino', k. split; [exact Hrun|]. split; [exact Hk|].
  split; [exact Hold|exact Hnew].
Defined.

Lemma ReadDir_after_RemoveChild_witness :
  ∃ ino' before after,
    RemoveChild 3 "b" sample_dir = Ok (tt, ino') ∧
    ReadDir sample_serialize 0 1000 sample_dir =
      Ok (wire sample_serialize before ++
          sample_serialize (child 1 2 "b" DT_File) ++
          wire sample_serialize after, None, sample_dir) ∧
    ReadDir sample_serialize 0 1000 ino' =
      Ok (wire sample_serialize before ++ wire sample_serialize after,
          None, ino').
Proof.
  apply (ReadDir_after_RemoveChild sample_serialize 3 "b" 1000 sample_dir 1
           (child 1 2 "b" DT_File));
    [reflexivity|exact sample_dir_b_first|reflexivity|discriminate
    |apply Z.leb_le; reflexivity].
Defined.

Lemma ReadDir_negative_size_witness :
  ReadDir sample_serialize 0 (-1) sample_dir = Panic "slice bounds out of range" ∧
  ReadDir sample_serialize 2 (-1) sample_dir = Ok ([], None, sample_dir).
Proof.
  split.
  - apply (ReadDir_negative_size sample_serialize 0 (-1) sample_dir);
      [reflexivity|lia|lia].
  - apply (ReadDir_negative_size sample_serialize 2 (-1) sample_dir);
      [reflexivity|lia|lia].
Defined.

Lemma negative_offset_panics_witness :
  ReadAt [x00; x00] (-1) empty_file = Panic "slice bounds out of range" ∧
  WriteAt 6 4096 [x00; x00] (-1) empty_file = Panic "slice bounds out of range" ∧
  ReadAt [x00; x00] 1 empty_file = Ok ([x00; x00], 0, Some io_EOF, empty_file).
Proof.
  destruct (negative_offset_panics 6 4096 [x00; x00] (-1) empty_file)
    as (Hread & _ & Hwrite & Hpast); [reflexivity|lia|].
  split; [exact Hread|]. split; [|exact Hpast].
  apply Hwrite. intros _. split; apply Z.leb_le; reflexivity.
Defined.
